(** * grob-cli: the source-mutation engine of [cmd/grob/main.go]

    The command line tool scaffolds a project and registers every new
    application and module by rewriting a generated Go file: it parses the
    file, walks the syntax tree with [ast.Inspect], appends to the anchors
    it meets, prints the tree and overwrites the file.

    This development embeds the functions that do so ([getProjectName],
    [addAppToInternalMain], [addModuleToAppMain]) together with the part of
    [go/ast] they walk, and states the specification's claims over them.
    The Go standard library calls the code makes ([parser.ParseFile],
    [format.Node], [os.WriteFile]) are an interface, [GoEnv]; the theorems
    hold for every implementation of it. *)

From Stdlib Require Import List String Ascii Bool Arith Lia.
Import ListNotations.
Open Scope string_scope.

(** ** Strings: the [strings] functions the code calls *)

Module Strings.

Definition newline : ascii := ascii_of_nat 10.
Definition space : ascii := ascii_of_nat 32.
Definition dquote : ascii := ascii_of_nat 34.

(** Cut [s] at every byte that satisfies [p]; the pieces are the maximal
    runs between two cuts, empty ones included, so the result is never
    the empty list. *)
Fixpoint splitBy (p : ascii -> bool) (s : string) : list string :=
  match s with
  | EmptyString => [EmptyString]
  | String c s' =>
      if p c then EmptyString :: splitBy p s'
      else match splitBy p s' with
           | [] => [String c EmptyString]
           | x :: xs => String c x :: xs
           end
  end.

(** [strings.Split(s, sep)] for a separator of one byte, the only kind
    the code passes. *)
Definition Split (s : string) (sep : ascii) : list string :=
  splitBy (Ascii.eqb sep) s.

(** [unicode.IsSpace] on bytes below 0x80: tab, line feed, vertical tab,
    form feed, carriage return and space. *)
Definition isSpace (c : ascii) : bool :=
  let n := nat_of_ascii c in
  (((9 <=? n) && (n <=? 13)) || (n =? 32))%nat.

Definition nonEmpty (s : string) : bool :=
  match s with EmptyString => false | String _ _ => true end.

(** [strings.Fields(s)]: the non-empty pieces of [s] between white
    space. *)
Definition Fields (s : string) : list string :=
  filter nonEmpty (splitBy isSpace s).

Definition isLower (c : ascii) : bool :=
  let n := nat_of_ascii c in ((97 <=? n) && (n <=? 122))%nat.
Definition isUpper (c : ascii) : bool :=
  let n := nat_of_ascii c in ((65 <=? n) && (n <=? 90))%nat.
Definition isDigit (c : ascii) : bool :=
  let n := nat_of_ascii c in ((48 <=? n) && (n <=? 57))%nat.

(** [isSeparator] of [strings/strings.go] on bytes: letters, digits and
    the underscore are not separators, every other byte below 0x80 is.
    Bytes from 0x80 on belong to multi-byte runes, which the library
    decodes and this function does not: they are passed through as
    non-separators. *)
Definition isSeparator (c : ascii) : bool :=
  if (nat_of_ascii c <=? 127)%nat
  then negb (isLower c || isUpper c || isDigit c || (nat_of_ascii c =? 95)%nat)
  else false.

Definition toTitle (c : ascii) : ascii :=
  if isLower c then ascii_of_nat (nat_of_ascii c - 32) else c.

Fixpoint TitleFrom (prev : ascii) (s : string) : string :=
  match s with
  | EmptyString => EmptyString
  | String c s' =>
      String (if isSeparator prev then toTitle c else c) (TitleFrom c s')
  end.

(** [strings.Title(s)]: the first letter of every word in upper case.
    This is the library's function on strings of bytes below 0x80. On a
    string with other bytes the library works rune by rune (it puts a
    letter such as U+00E9 at the start of a word in upper case, and takes
    the Unicode spaces for separators), and this definition, which
    leaves such bytes as they are, does not follow it there. *)
Definition Title (s : string) : string := TitleFrom space s.

(** A string in which no byte satisfies [p]. *)
Fixpoint free (p : ascii -> bool) (s : string) : bool :=
  match s with
  | EmptyString => true
  | String c s' => negb (p c) && free p s'
  end.

End Strings.

(** ** The project locator *)

(** [getProjectName], as a function of the bytes [os.ReadFile] returned for
    [go.mod]. [None] is the run-time panic of an index out of range. *)
Definition getProjectName (goModBytes : string) : option string :=
  match nth_error (Strings.Split goModBytes Strings.newline) 0 with
  | None => None
  | Some line => nth_error (Strings.Split line Strings.space) 1
  end.

(** The specification's words for the same value: the second token of the
    manifest's first line, tokens being delimited by white space. *)
Definition firstLine (manifest : string) : string :=
  hd EmptyString (Strings.Split manifest Strings.newline).

Definition secondWhitespaceToken (manifest : string) : option string :=
  nth_error (Strings.Fields (firstLine manifest)) 1.

(** The tail a line may have after its second token: nothing, or a space
    and anything. The same with a line feed allowed is what may follow
    the second token in the manifest. *)
Definition endsToken (line : bool) (rest : string) : Prop :=
  rest = "" \/
  exists c rest', rest = String c rest' /\
    (c = Strings.space \/ (line = false /\ c = Strings.newline)).

(** ** The syntax tree: the part of [go/ast] the code walks *)

(** [go/token]: the declaration keywords and literal kinds. *)
Inductive Token : Type :=
| IMPORT | CONST | TYPE | VAR
| INT | FLOAT | IMAG | CHAR | STRING.

Set Warnings "-register-all".

(** [ast.Node]. The callbacks of the code test a node's dynamic type, so
    all node kinds live in one type. The kinds the callbacks name have a
    constructor each, with the fields the code reads or builds; every
    other kind (function declarations, statements, the remaining
    expressions) is an [Other] node that carries its children in the order
    [ast.Walk] visits them. Positions are left to the file set; of a
    declaration's [Lparen] the tree keeps whether it is valid, that is,
    whether the declaration is parenthesised. *)
Inductive Node : Type :=
| File (Name : string) (Decls : list Node)
| CommentGroup (List : list string)
| GenDecl (Doc : list string) (Tok : Token) (Lparen : bool) (Specs : list Node)
| ImportSpec (Name : option string) (Path : Node)
| Ident (Name : string)
| BasicLit (Kind : Token) (Value : string)
| CompositeLit (Type_ : option Node) (Elts : list Node)
| MapType (Key : Node) (Value : Node)
| KeyValueExpr (Key : Node) (Value : Node)
| SelectorExpr (X : Node) (Sel : string)
| CallExpr (Fun : Node) (Args : list Node)
| Other (kind : string) (children : list Node).

(** [ast.Inspect(node, f)] for a callback that edits the node it stops at.
    [f n = Some n'] is the callback changing [n] into [n'] and returning
    [false]: the walk does not enter the node. [f n = None] is the
    callback returning [true] with no effect: the walk goes on to the
    children of [n], first to last, and to the rest of the tree after
    them. Nothing ends the walk early. *)
Fixpoint Inspect (f : Node -> option Node) (n : Node) {struct n} : Node :=
  match f n with
  | Some n' => n'
  | None =>
      match n with
      | File name decls => File name (map (Inspect f) decls)
      | CommentGroup l => CommentGroup l
      | GenDecl doc tok lp specs => GenDecl doc tok lp (map (Inspect f) specs)
      | ImportSpec name path => ImportSpec name (Inspect f path)
      | Ident name => Ident name
      | BasicLit kind value => BasicLit kind value
      | CompositeLit ty elts =>
          CompositeLit (option_map (Inspect f) ty) (map (Inspect f) elts)
      | MapType k v => MapType (Inspect f k) (Inspect f v)
      | KeyValueExpr k v => KeyValueExpr (Inspect f k) (Inspect f v)
      | SelectorExpr x sel => SelectorExpr (Inspect f x) sel
      | CallExpr fn args => CallExpr (Inspect f fn) (map (Inspect f) args)
      | Other kind children => Other kind (map (Inspect f) children)
      end
  end.

(** How many nodes a walk stops at, that is, how many edits it makes. *)
Fixpoint stops (f : Node -> option Node) (n : Node) {struct n} : nat :=
  match f n with
  | Some _ => 1
  | None =>
      let sum := fold_right (fun c k => stops f c + k) 0 in
      match n with
      | File _ decls => sum decls
      | GenDecl _ _ _ specs => sum specs
      | ImportSpec _ path => stops f path
      | CompositeLit ty elts =>
          match ty with Some t => stops f t | None => 0 end + sum elts
      | MapType k v | KeyValueExpr k v => stops f k + stops f v
      | SelectorExpr x _ => stops f x
      | CallExpr fn args => stops f fn + sum args
      | Other _ children => sum children
      | CommentGroup _ | Ident _ | BasicLit _ _ => 0
      end
  end.

(** Some node of the tree, at any depth, satisfies [p]. *)
Fixpoint anywhere (p : Node -> bool) (n : Node) {struct n} : bool :=
  p n ||
  match n with
  | File _ decls => existsb (anywhere p) decls
  | GenDecl _ _ _ specs => existsb (anywhere p) specs
  | ImportSpec _ path => anywhere p path
  | CompositeLit ty elts =>
      match ty with Some t => anywhere p t | None => false end
      || existsb (anywhere p) elts
  | MapType k v | KeyValueExpr k v => anywhere p k || anywhere p v
  | SelectorExpr x _ => anywhere p x
  | CallExpr fn args => anywhere p fn || existsb (anywhere p) args
  | Other _ children => existsb (anywhere p) children
  | CommentGroup _ | Ident _ | BasicLit _ _ => false
  end.

(** The children of a node, in the order [ast.Walk] visits them, and a
    node rebuilt over new children. *)
Definition children (n : Node) : list Node :=
  match n with
  | File _ decls => decls
  | GenDecl _ _ _ specs => specs
  | ImportSpec _ path => [path]
  | CompositeLit ty elts =>
      match ty with Some t => [t] | None => [] end ++ elts
  | MapType k v | KeyValueExpr k v => [k; v]
  | SelectorExpr x _ => [x]
  | CallExpr fn args => fn :: args
  | Other _ cs => cs
  | CommentGroup _ | Ident _ | BasicLit _ _ => []
  end.

Definition mapChildren (h : Node -> Node) (n : Node) : Node :=
  match n with
  | File name decls => File name (map h decls)
  | GenDecl doc tok lp specs => GenDecl doc tok lp (map h specs)
  | ImportSpec name path => ImportSpec name (h path)
  | CompositeLit ty elts => CompositeLit (option_map h ty) (map h elts)
  | MapType k v => MapType (h k) (h v)
  | KeyValueExpr k v => KeyValueExpr (h k) (h v)
  | SelectorExpr x sel => SelectorExpr (h x) sel
  | CallExpr fn args => CallExpr (h fn) (map h args)
  | Other kind cs => Other kind (map h cs)
  | CommentGroup _ | Ident _ | BasicLit _ _ => n
  end.

(** The node reached from [n] along a path of child indices. *)
Fixpoint subtree (path : list nat) (n : Node) : option Node :=
  match path with
  | [] => Some n
  | i :: rest =>
      match nth_error (children n) i with
      | Some c => subtree rest c
      | None => None
      end
  end.

(** The walk gets to the end of [path]: the callback returns [true] at
    every node strictly above it. *)
Fixpoint entered (f : Node -> option Node) (path : list nat) (n : Node) : bool :=
  match path with
  | [] => true
  | i :: rest =>
      match f n, nth_error (children n) i with
      | None, Some c => entered f rest c
      | _, _ => false
      end
  end.

(** *** The three callbacks *)

Definition quoted (s : string) : string :=
  String Strings.dquote (s ++ String Strings.dquote EmptyString).

(** Lines 375-383 and 427-436: at an import declaration, append
    [newImport] to its specs and do not enter it. *)
Definition appendImport (newImport : Node) (n : Node) : option Node :=
  match n with
  | GenDecl doc IMPORT lp specs =>
      Some (GenDecl doc IMPORT lp (specs ++ [newImport]))
  | _ => None
  end.

(** Lines 389-408: at a composite literal whose type is a map type with
    key the identifier [string], append the entry of the application. *)
Definition newAppEntry (appName : string) : Node :=
  KeyValueExpr (BasicLit STRING (quoted appName))
               (CompositeLit (Some (SelectorExpr (Ident appName) "App")) []).

Definition appendMapEntry (appName : string) (n : Node) : option Node :=
  match n with
  | CompositeLit (Some (MapType (Ident key) v)) elts =>
      if (key =? "string")%string
      then Some (CompositeLit (Some (MapType (Ident key) v))
                              (elts ++ [newAppEntry appName]))
      else None
  | _ => None
  end.

(** Lines 442-455: at a call of the selector [core.New], append the
    module's composite literal to the arguments. *)
Definition newModuleEntry (moduleName : string) : Node :=
  CompositeLit
    (Some (SelectorExpr (Ident moduleName)
                        (Strings.Title moduleName ++ "Module")))
    [].

Definition appendCallArgument (moduleName : string) (n : Node) : option Node :=
  match n with
  | CallExpr (SelectorExpr (Ident x) sel) args =>
      if ((x =? "core") && (sel =? "New"))%string
      then Some (CallExpr (SelectorExpr (Ident x) sel)
                          (args ++ [newModuleEntry moduleName]))
      else None
  | _ => None
  end.

(** The import specs the two functions build. *)
Definition appImport (projectName appName : string) : Node :=
  ImportSpec None
    (BasicLit STRING (quoted (projectName ++ "/internal/" ++ appName))).

Definition moduleImport (projectName appName moduleName : string) : Node :=
  ImportSpec (Some moduleName)
    (BasicLit STRING
       (quoted (projectName ++ "/internal/" ++ appName ++ "/" ++ moduleName))).

(** The tree each function hands to the printer: the parsed tree after
    its two walks. *)
Definition appRegistered (projectName appName : string) (node : Node) : Node :=
  Inspect (appendMapEntry appName)
          (Inspect (appendImport (appImport projectName appName)) node).

Definition moduleRegistered (projectName appName moduleName : string)
  (node : Node) : Node :=
  Inspect (appendCallArgument moduleName)
          (Inspect (appendImport (moduleImport projectName appName moduleName))
                   node).

(** ** The anchors, as the specification names them *)

(** [SoleImportList]: an import declaration. *)
Definition isImportList (n : Node) : bool :=
  match n with
  | GenDecl _ IMPORT _ _ => true
  | _ => false
  end.

(** [StringKeyedAggregate]: a composite literal of a map type with key
    type [string]. *)
Definition isStringKeyedAggregate (n : Node) : bool :=
  match n with
  | CompositeLit (Some (MapType (Ident key) _)) _ => (key =? "string")%string
  | _ => false
  end.

(** [SelectorCall(namespacePart, memberPart)]: a call whose callee is the
    selector [namespacePart.memberPart]. *)
Definition isSelectorCall (namespacePart memberPart : string) (n : Node) : bool :=
  match n with
  | CallExpr (SelectorExpr (Ident x) sel) _ =>
      ((x =? namespacePart) && (sel =? memberPart))%string
  | _ => false
  end.

(** The three edits, each with the node it appends. *)
Inductive edit : (Node -> option Node) -> Node -> Prop :=
| edit_import (spec : Node) : edit (appendImport spec) spec
| edit_map (appName : string) :
    edit (appendMapEntry appName) (newAppEntry appName)
| edit_call (moduleName : string) :
    edit (appendCallArgument moduleName) (newModuleEntry moduleName).

(** *** What a run adds *)

(** The entry of an application in a registry literal, and a registry
    literal that holds it. *)
Definition isAppEntry (appName : string) (e : Node) : bool :=
  match e with
  | KeyValueExpr (BasicLit STRING key)
                 (CompositeLit (Some (SelectorExpr (Ident x) sel)) []) =>
      ((key =? quoted appName) && (x =? appName) && (sel =? "App"))%string
  | _ => false
  end.

Definition registersApp (appName : string) (n : Node) : bool :=
  isStringKeyedAggregate n && existsb (isAppEntry appName) (children n).

(** The argument of a module in a call, and a call of [core.New] that
    holds it. *)
Definition isModuleEntry (moduleName : string) (e : Node) : bool :=
  match e with
  | CompositeLit (Some (SelectorExpr (Ident x) sel)) [] =>
      ((x =? moduleName) && (sel =? Strings.Title moduleName ++ "Module"))%string
  | _ => false
  end.

Definition registersModule (moduleName : string) (n : Node) : bool :=
  isSelectorCall "core" "New" n && existsb (isModuleEntry moduleName) (children n).

(** An import spec of the given path literal. *)
Definition importsPath (value : string) (n : Node) : bool :=
  match n with
  | ImportSpec _ (BasicLit STRING v) => (v =? value)%string
  | _ => false
  end.

(** ** The library interface and the two registration functions *)

(** [token.Position] and the errors the three library calls return. *)
Record Position : Type :=
  { Filename : string; Line : nat; Column : nat }.

Inductive error : Type :=
| ErrorList (errs : list (Position * string))   (* go/scanner, from the parser *)
| PathError (op : string) (path : string) (msg : string)   (* os *)
| FormatError (msg : string).                   (* go/format, go/printer *)

(** The Go standard library as the code sees it. [world] is the state of
    the file system; [FileSet] is what [token.NewFileSet] holds after the
    parse (the positions of the nodes and comments, which the tree here
    does not carry); [bytes] is the content of a buffer or a file. *)
Class GoEnv : Type :=
  { world : Type;
    FileSet : Type;
    bytes : Type;
    (* parser.ParseFile(fset, path, nil, parser.ParseComments) *)
    parser_ParseFile : world -> string -> error + (FileSet * Node);
    (* format.Node(&buf, fset, node), then buf.Bytes() *)
    format_Node : FileSet -> Node -> error + bytes;
    (* os.WriteFile(path, data, 0644) *)
    os_WriteFile : world -> string -> bytes -> world * option error }.

(** What a run leaves behind: the state of the file system, the [error]
    it returns ([None] is [nil]) and the calls of [os.WriteFile] it made,
    in order. *)
Record Run `{GoEnv} : Type :=
  { after : world;
    returned : option error;
    written : list (string * bytes) }.

Section Registration.

Context `{E : GoEnv}.

Definition addAppToInternalMain (w : world) (path projectName appName : string)
  : Run :=
  match parser_ParseFile w path with
  | inl err => {| after := w; returned := Some err; written := [] |}
  | inr (fset, node) =>
      let node :=
        Inspect (appendImport (appImport projectName appName)) node in
      let node := Inspect (appendMapEntry appName) node in
      match format_Node fset node with
      | inl err => {| after := w; returned := Some err; written := [] |}
      | inr buf =>
          let (w', err) := os_WriteFile w path buf in
          {| after := w'; returned := err; written := [(path, buf)] |}
      end
  end.

Definition addModuleToAppMain (w : world)
  (path projectName appName moduleName : string) : Run :=
  match parser_ParseFile w path with
  | inl err => {| after := w; returned := Some err; written := [] |}
  | inr (fset, node) =>
      let node :=
        Inspect (appendImport (moduleImport projectName appName moduleName))
                node in
      let node := Inspect (appendCallArgument moduleName) node in
      match format_Node fset node with
      | inl err => {| after := w; returned := Some err; written := [] |}
      | inr buf =>
          let (w', err) := os_WriteFile w path buf in
          {| after := w'; returned := err; written := [(path, buf)] |}
      end
  end.

End Registration.

(** ** A concrete library

    An implementation of [GoEnv] to run the functions on: a file is kept
    up to what the parser makes of it (a tree, or a list of syntax
    errors), and a buffer of printed source is kept as the tree that
    parsing it gives back. The printer is [format.Node] as far as the tree
    shows it: a declaration that is parenthesised or has other than one
    spec is printed in parentheses, and when a leading import declaration
    of the file is parenthesised the source is printed, parsed again and
    passed to [ast.SortImports].

    The library is modelled for the files the tool generates and no
    further:
    - [ast.SortImports] sorts, by path and then by name, each run of
      specs that stand on consecutive lines, and drops a spec equal to
      its successor. The tree does not record lines; the specs of a
      declaration are taken to stand on consecutive lines, as in the
      generated files, so that a declaration is one run. A declaration
      with a blank line between two specs is sorted run by run by the
      library and as a whole by [sortLeading], which is not the library
      there.
    - [format.Node] can fail, for one when the source it printed does not
      parse again; [formatted] always returns. The failing case is kept
      by the interface [GoEnv], not by this instance.
    - Comments are kept where the tree has them ([Doc], [CommentGroup]);
      where the printer puts a comment that is attached by position only
      is not modelled. *)
Module Gofmt.

Inductive content : Type :=
| Source (tree : Node)
| Malformed (errs : list (Position * string)).

Definition files : Type := string -> option content.

Definition store (w : files) (path : string) (c : content) : files :=
  fun p => if (p =? path)%string then Some c else w p.

(** [importPath] and [importName] of [go/ast/import.go]. *)
Definition importPath (spec : Node) : string :=
  match spec with
  | ImportSpec _ (BasicLit _ (String _ rest)) =>
      substring 0 (String.length rest - 1) rest
  | _ => EmptyString
  end.

Definition importName (spec : Node) : string :=
  match spec with
  | ImportSpec (Some name) _ => name
  | _ => EmptyString
  end.

Definition specLeb (a b : Node) : bool :=
  match String.compare (importPath a) (importPath b) with
  | Lt => true
  | Gt => false
  | Eq => (importName a <=? importName b)%string
  end.

Definition collapse (prev next : Node) : bool :=
  ((importPath next =? importPath prev) &&
   (importName next =? importName prev))%string.

Fixpoint insertSpec (s : Node) (l : list Node) : list Node :=
  match l with
  | [] => [s]
  | x :: l' => if specLeb s x then s :: l else x :: insertSpec s l'
  end.

Fixpoint dedup (l : list Node) : list Node :=
  match l with
  | [] => []
  | s :: l' =>
      match l' with
      | next :: _ => if collapse s next then dedup l' else s :: dedup l'
      | [] => [s]
      end
  end.

Definition sortSpecs (specs : list Node) : list Node :=
  dedup (fold_right insertSpec [] specs).

Fixpoint sortLeading (decls : list Node) : list Node :=
  match decls with
  | GenDecl doc IMPORT lp specs :: rest =>
      GenDecl doc IMPORT lp (if lp then sortSpecs specs else specs)
      :: sortLeading rest
  | _ => decls
  end.

Definition SortImports (f : Node) : Node :=
  match f with
  | File name decls => File name (sortLeading decls)
  | _ => f
  end.

Fixpoint leadingParen (decls : list Node) : bool :=
  match decls with
  | GenDecl _ IMPORT lp _ :: rest => lp || leadingParen rest
  | _ => false
  end.

Definition hasUnsortedImports (f : Node) : bool :=
  match f with
  | File _ decls => leadingParen decls
  | _ => false
  end.

(** The tree the parser gives back for the printed form of [n]. *)
Fixpoint reparsed (n : Node) {struct n} : Node :=
  match n with
  | File name decls => File name (map reparsed decls)
  | CommentGroup l => CommentGroup l
  | GenDecl doc tok lp specs =>
      GenDecl doc tok (lp || negb (List.length specs =? 1)%nat)
              (map reparsed specs)
  | ImportSpec name path => ImportSpec name (reparsed path)
  | Ident name => Ident name
  | BasicLit kind value => BasicLit kind value
  | CompositeLit ty elts =>
      CompositeLit (option_map reparsed ty) (map reparsed elts)
  | MapType k v => MapType (reparsed k) (reparsed v)
  | KeyValueExpr k v => KeyValueExpr (reparsed k) (reparsed v)
  | SelectorExpr x sel => SelectorExpr (reparsed x) sel
  | CallExpr fn args => CallExpr (reparsed fn) (map reparsed args)
  | Other kind children => Other kind (map reparsed children)
  end.

Definition formatted (n : Node) : Node :=
  if hasUnsortedImports n
  then reparsed (SortImports (reparsed n))
  else reparsed n.

#[export] Instance env : GoEnv :=
  {| world := files;
     FileSet := unit;
     bytes := Node;
     parser_ParseFile := fun w path =>
       match w path with
       | None => inl (PathError "open" path "no such file or directory")
       | Some (Malformed errs) => inl (ErrorList errs)
       | Some (Source tree) => inr (tt, tree)
       end;
     format_Node := fun _ n => inr (formatted n);
     os_WriteFile := fun w path data => (store w path (Source data), None) |}.

End Gofmt.

(** ** The generated files *)

Module Templates.

Definition import_ (path : string) : Node :=
  ImportSpec None (BasicLit STRING (quoted path)).

Definition call (recv meth : string) (args : list Node) : Node :=
  CallExpr (SelectorExpr (Ident recv) meth) args.

Definition funcType : Node := Other "FuncType" [Other "FieldList" []].

(** [internalMainTmpl], lines 44-80, as the parser reads it. *)
Definition internalMain : Node :=
  File "main"
    [ GenDecl [] IMPORT true [import_ "log"; import_ "sync"];
      GenDecl ["// AppRunner defines the interface for a runnable application."]
        TYPE false
        [Other "TypeSpec"
           [Ident "AppRunner";
            Other "InterfaceType"
              [Other "FieldList" [Other "Field" [Ident "Run"; funcType]]]]];
      Other "FuncDecl"
        [ Ident "main"; funcType;
          Other "BlockStmt"
            [ Other "AssignStmt"
                [Ident "apps";
                 CompositeLit
                   (Some (MapType (Ident "string") (Ident "AppRunner"))) []];
              Other "DeclStmt"
                [GenDecl [] VAR false
                   [Other "ValueSpec"
                      [Ident "wg"; SelectorExpr (Ident "sync") "WaitGroup"]]];
              Other "IfStmt"
                [ Other "BinaryExpr"
                    [CallExpr (Ident "len") [Ident "apps"]; BasicLit INT "0"];
                  Other "BlockStmt"
                    [ Other "ExprStmt"
                        [call "log" "Println"
                           [BasicLit STRING
                                (quoted "No applications to run. Use 'grob create-app <app-name>' to create one.")]];
                      Other "ReturnStmt" [] ] ];
              Other "RangeStmt"
                [ Ident "name"; Ident "app"; Ident "apps";
                  Other "BlockStmt"
                    [ Other "ExprStmt" [call "wg" "Add" [BasicLit INT "1"]];
                      Other "GoStmt"
                        [CallExpr
                           (Other "FuncLit"
                              [ Other "FuncType"
                                  [Other "FieldList"
                                     [ Other "Field" [Ident "appName"; Ident "string"];
                                       Other "Field" [Ident "runner"; Ident "AppRunner"] ]];
                                Other "BlockStmt"
                                  [ Other "DeferStmt" [call "wg" "Done" []];
                                    Other "ExprStmt"
                                      [call "log" "Printf"
                                         [BasicLit STRING
                                            (quoted "Starting application: %s");
                                          Ident "appName"]];
                                    Other "ExprStmt" [call "runner" "Run" []] ] ])
                           [Ident "name"; Ident "app"]] ] ];
              Other "ExprStmt"
                [call "log" "Println"
                   [BasicLit STRING (quoted "All applications are starting...")]];
              Other "ExprStmt" [call "wg" "Wait" []];
              Other "ExprStmt"
                [call "log" "Println"
                   [BasicLit STRING
                      (quoted "All applications have been shut down.")]] ] ] ].

(** The body of [Run] in [appMainTmpl], given the statement that binds
    [app]. *)
Definition appMainWith (projectName appName : string) (bindApp : list Node)
  : Node :=
  File appName
    [ GenDecl [] IMPORT true
        [import_ (projectName ++ "/internal/" ++ appName ++ "/core")];
      GenDecl ["// App struct holds the application instance."] TYPE false
        [Other "TypeSpec"
           [Ident "App"; Other "StructType" [Other "FieldList" []]]];
      Other "FuncDecl"
        [ CommentGroup ["// Run initializes and starts the web application."];
          Other "FieldList" [Other "Field" [Ident "a"; Ident "App"]];
          Ident "Run"; funcType;
          Other "BlockStmt"
            ([ Other "AssignStmt"
                 [Ident "port"; BasicLit STRING (quoted ":8081")] ]
             ++ bindApp ++
             [ Other "ExprStmt" [call "app" "Start" [Ident "port"]] ]) ] ].

Definition coreNew (args : list Node) : Node := call "core" "New" args.

(** [appMainTmpl], lines 82-104, rendered for a project and an
    application, as the parser reads it. The names are spliced into the
    source as text, so this is the parsed file only when [appName] is a Go
    identifier and [projectName] has nothing that ends the string literal
    of the import path; for other names the rendered file is read as
    another tree, or is not read at all. *)
Definition appMain (projectName appName : string) : Node :=
  appMainWith projectName appName
    [Other "AssignStmt" [Ident "app"; coreNew []]].

End Templates.

(** ** Files to run the functions on *)

Module Scenario.

Import Templates.

Definition empty : Gofmt.files := fun _ => None.


Definition appPath : string := "internal/web/web_main.go".
Definition mainPath : string := "internal/main.go".

(** A file with two import declarations and, in one function, two
    sibling map literals keyed by [string]. *)
Definition twoOfEach : Node :=
  File "main"
    [ GenDecl [] IMPORT true [import_ "log"; import_ "sync"];
      GenDecl [] IMPORT true [import_ "acme/internal/web"];
      Other "FuncDecl"
        [ Ident "main"; funcType;
          Other "BlockStmt"
            [ Other "AssignStmt"
                [Ident "apps";
                 CompositeLit
                   (Some (MapType (Ident "string") (Ident "AppRunner"))) []];
              Other "AssignStmt"
                [Ident "ports";
                 CompositeLit
                   (Some (MapType (Ident "string") (Ident "int")))
                   [KeyValueExpr (BasicLit STRING (quoted "web"))
                                 (BasicLit INT "8081")]] ] ] ].

(** The specs of the first declaration of a file, when it parses and
    that declaration is an import declaration. *)
Definition importsOf (w : Gofmt.files) (path : string) : option (list Node) :=
  match @parser_ParseFile Gofmt.env w path with
  | inr (_, File _ (GenDecl _ IMPORT _ specs :: _)) => Some specs
  | _ => None
  end.

(** The main file with the registry made by a call of [make] instead of
    a composite literal. *)
Definition registryByMake : Node :=
  File "main"
    [ GenDecl [] IMPORT true [import_ "log"; import_ "sync"];
      Other "FuncDecl"
        [ Ident "main"; funcType;
          Other "BlockStmt"
            [ Other "AssignStmt"
                [Ident "apps";
                 CallExpr (Ident "make")
                   [MapType (Ident "string") (Ident "AppRunner")]] ] ] ].

End Scenario.

(** ** The project root *)

(** What [findProjectRoot] asks of the operating system and of
    [path/filepath]. [os_Stat name] is the error of [os.Stat(name)],
    [None] when there is none. *)
Class PathEnv : Type :=
  { os_Getwd : error + string;
    os_Stat : string -> option error;
    filepath_Join : string -> string -> string;
    filepath_Dir : string -> string }.

(** The two errors [findProjectRoot] returns: the one [os.Getwd] gave, or
    the one it makes with [fmt.Errorf]. *)
Inductive rootError : Type :=
| GetwdError (err : error)
| Errorf (msg : string).

(** The loop of lines 348-356, started at [dir]. It has no bound of its
    own: [fuel] counts the iterations allowed, and [None] is the loop
    still running when they are used up. *)
Fixpoint searchUp {P : PathEnv} (fuel : nat) (dir : string)
  : option (string + rootError) :=
  match fuel with
  | 0 => None
  | S fuel' =>
      match os_Stat (filepath_Join dir "go.mod") with
      | None => Some (inl dir)
      | Some _ =>
          if (dir =? filepath_Dir dir)%string
          then Some (inr (Errorf "go.mod not found in any parent directory"))
          else searchUp fuel' (filepath_Dir dir)
      end
  end.

Definition findProjectRoot {P : PathEnv} (fuel : nat) : option (string + rootError) :=
  match os_Getwd with
  | inl err => Some (inr (GetwdError err))
  | inr dir => searchUp fuel dir
  end.

(** The directory [k] levels above [dir]. *)
Definition up {P : PathEnv} (k : nat) (dir : string) : string :=
  Nat.iter k filepath_Dir dir.

Arguments up : simpl never.

Module Unix.

Definition slash : ascii := ascii_of_nat 47.

(** [filepath.Dir] and [filepath.Join] on rooted, cleaned, slash-separated
    paths. *)
Definition Dir (path : string) : string :=
  match removelast (Strings.Split path slash) with
  | [] | [EmptyString] => String slash EmptyString
  | parts => String.concat (String slash EmptyString) parts
  end.

Definition Join (dir name : string) : string :=
  if (dir =? String slash EmptyString)%string
  then String slash name
  else dir ++ String slash name.

Definition env (cwd : string) (files : list string) : PathEnv :=
  {| os_Getwd := inr cwd;
     os_Stat := fun name =>
       if existsb (String.eqb name) files then None
       else Some (PathError "stat" name "no such file or directory");
     filepath_Join := Join;
     filepath_Dir := Dir |}.

End Unix.

(** A working directory inside the application [web] of the project
    [acme]. *)
Definition inApp : PathEnv :=
  Unix.env "/home/dev/acme/internal/web"
    ["/home/dev/acme/go.mod"; "/home/dev/notes.txt"].

(** ** The manifest of a new project *)

(** [goModTmpl], lines 21-30, as [createFileFromTmpl] renders it for the
    data [newProject] passes: the action [{{.ProjectName}}] is the
    project name. *)
Definition goModTmpl (ProjectName : string) : string :=
  let nl := String Strings.newline EmptyString in
  let tab := String (ascii_of_nat 9) EmptyString in
  "module " ++ ProjectName ++ nl ++
  nl ++
  "go 1.19" ++ nl ++
  nl ++
  "require (" ++ nl ++
  tab ++ "github.com/gin-gonic/gin v1.8.1" ++ nl ++
  tab ++ "github.com/yuliussmayoru/grob-framework v0.1.0" ++ nl ++
  tab ++ "go.uber.org/dig v1.15.0" ++ nl ++
  ")" ++ nl.

(** The bytes of an identifier written in ASCII: letters, digits and the
    underscore. *)
Definition isWordByte (c : ascii) : bool :=
  Strings.isLower c || Strings.isUpper c || Strings.isDigit c ||
  (nat_of_ascii c =? 95)%nat.

(** ** Reasoning about walks *)

Section Induction.

Variable P : Node -> Prop.
Hypothesis step : forall n, Forall P (children n) -> P n.

Fixpoint Node_children_ind (n : Node) : P n :=
  let all :=
    fix all (l : list Node) : Forall P l :=
      match l with
      | [] => Forall_nil P
      | c :: l' => Forall_cons c (Node_children_ind c) (all l')
      end in
  step n
    (match n return Forall P (children n) with
     | File _ decls => all decls
     | GenDecl _ _ _ specs => all specs
     | ImportSpec _ path => Forall_cons path (Node_children_ind path) (Forall_nil P)
     | CompositeLit ty elts =>
         match ty return
           Forall P (match ty with Some t => [t] | None => [] end ++ elts)
         with
         | Some t => Forall_cons t (Node_children_ind t) (all elts)
         | None => all elts
         end
     | MapType k v | KeyValueExpr k v =>
         Forall_cons k (Node_children_ind k)
           (Forall_cons v (Node_children_ind v) (Forall_nil P))
     | SelectorExpr x _ => Forall_cons x (Node_children_ind x) (Forall_nil P)
     | CallExpr fn args => Forall_cons fn (Node_children_ind fn) (all args)
     | Other _ cs => all cs
     | CommentGroup _ | Ident _ | BasicLit _ _ => Forall_nil P
     end).

End Induction.

Ltac walk_cases :=
  simpl;
  repeat match goal with
         | |- context [match ?t with IMPORT => _ | _ => _ end] => destruct t; simpl
         | |- context [if ?b then _ else _] => destruct b; simpl
         end;
  try tauto; try (split; intros; congruence).

(** Case analysis on the shape of a node, as far as a callback looks
    into it. *)
Ltac shape_step :=
  match goal with
  | |- context [if ?b then _ else _] => destruct b eqn:?; simpl
  | |- context [match ?x with Some _ => _ | None => _ end] =>
      is_var x; destruct x; simpl
  | |- context [match ?x with IMPORT => _ | _ => _ end] =>
      is_var x; destruct x; simpl
  | |- context [match ?x with File _ _ => _ | _ => _ end] =>
      is_var x; destruct x; simpl
  | |- context [match Inspect _ ?x with File _ _ => _ | _ => _ end] =>
      is_var x; destruct x; simpl
  end.

Ltac shapes :=
  simpl; repeat (try reflexivity; shape_step);
  try reflexivity; try congruence; try tauto; try (split; congruence).

Ltac shape_in H :=
  repeat match type of H with
         | context [if ?b then _ else _] =>
             destruct b eqn:?; try discriminate H
         | context [match ?x with Some _ => _ | None => _ end] =>
             is_var x; destruct x; try discriminate H
         | context [match ?x with IMPORT => _ | _ => _ end] =>
             is_var x; destruct x; try discriminate H
         | context [match ?x with File _ _ => _ | _ => _ end] =>
             is_var x; destruct x; try discriminate H
         end.

(** * Lemmas *)

Lemma sum_stops (f : Node -> option Node) (l : list Node) :
  fold_right (fun c k => stops f c + k) 0 l = list_sum (map (stops f) l).
Proof. induction l as [|c l IH]; simpl; [reflexivity | now rewrite IH]. Qed.

Lemma Inspect_eq (f : Node -> option Node) (n : Node) :
  Inspect f n =
  match f n with Some n' => n' | None => mapChildren (Inspect f) n end.
Proof. destruct n; simpl; destruct (f _); reflexivity. Qed.

Lemma stops_eq (f : Node -> option Node) (n : Node) :
  stops f n =
  match f n with
  | Some _ => 1
  | None => list_sum (map (stops f) (children n))
  end.
Proof.
  destruct n; simpl; destruct (f _); try reflexivity;
    rewrite ?sum_stops; simpl; try lia.
  destruct Type_; simpl; rewrite ?map_app, ?list_sum_app; simpl; lia.
Qed.

Lemma anywhere_eq (p : Node -> bool) (n : Node) :
  anywhere p n = p n || existsb (anywhere p) (children n).
Proof.
  destruct n; simpl; rewrite ?orb_false_r; try reflexivity.
  destruct Type_; reflexivity.
Qed.

Lemma children_mapChildren (h : Node -> Node) (n : Node) :
  children (mapChildren h n) = map h (children n).
Proof.
  destruct n; simpl; try reflexivity.
  destruct Type_; reflexivity.
Qed.

Lemma mapChildren_fixed (h : Node -> Node) (n : Node) :
  Forall (fun c => h c = c) (children n) -> mapChildren h n = n.
Proof.
  assert (fixed : forall l, Forall (fun c => h c = c) l -> map h l = l).
  { induction 1 as [|c l Hc _ IH]; simpl; congruence. }
  destruct n; simpl; intros H; try reflexivity;
    try (rewrite (fixed _ H); reflexivity);
    try (inversion H as [|? ? H1 H2]; subst;
         try (inversion H2 as [|? ? H3 H4]; subst); congruence).
  - destruct Type_; simpl in *.
    + inversion H as [|? ? H1 H2]; subst. rewrite H1, (fixed _ H2). reflexivity.
    + rewrite (fixed _ H). reflexivity.
  - inversion H as [|? ? H1 H2]; subst. rewrite H1, (fixed _ H2). reflexivity.
Qed.

Lemma list_sum_zero (l : list nat) :
  list_sum l = 0 <-> Forall (fun k => k = 0) l.
Proof.
  induction l as [|k l IH]; simpl.
  - split; [constructor | reflexivity].
  - split.
    + intros H. constructor; [lia | apply IH; lia].
    + intros H. inversion H; subst. apply IH in H3. lia.
Qed.

(** A walk that stops nowhere returns the tree it was given. *)
Lemma Inspect_no_stop (f : Node -> option Node) (n : Node) :
  stops f n = 0 -> Inspect f n = n.
Proof.
  induction n as [n IH] using Node_children_ind.
  rewrite stops_eq, Inspect_eq. destruct (f n); [discriminate|].
  intros H. apply list_sum_zero in H. apply mapChildren_fixed.
  rewrite Forall_map in H. rewrite Forall_forall in *.
  intros c Hc. apply IH; auto.
Qed.

(** A walk stops only at nodes its callback accepts: where no node
    satisfies [p], and the callback accepts only nodes that do, the walk
    stops nowhere. *)
Lemma stops_nowhere (p : Node -> bool) (f : Node -> option Node) (n : Node) :
  (forall m, p m = false -> f m = None) ->
  anywhere p n = false -> stops f n = 0.
Proof.
  intros Hpf. induction n as [n IH] using Node_children_ind.
  rewrite anywhere_eq, stops_eq. intros H.
  apply orb_false_elim in H as [Hp Hc]. rewrite (Hpf _ Hp).
  apply list_sum_zero. rewrite Forall_map, Forall_forall in *.
  intros c Hin. apply IH; auto.
  destruct (anywhere p c) eqn:Hac; [|reflexivity].
  assert (existsb (anywhere p) (children n) = true)
    by (apply existsb_exists; eauto).
  congruence.
Qed.

(** The second walk of a run meets the anchors of the parsed tree: the
    import walk [f] neither adds nor hides a node the callback [g] stops
    at, as long as [g] passes over declarations, does not stop inside
    what [f] builds, and accepts a rebuilt node exactly when it accepts
    the node. *)
Lemma stops_after_walk (f g : Node -> option Node) (n : Node) :
  (forall m m', f m = Some m' ->
     g m = None /\ g m' = None /\
     list_sum (map (stops g) (children m')) =
     list_sum (map (stops g) (children m))) ->
  (forall m, f m = None ->
     g (mapChildren (Inspect f) m) = None <-> g m = None) ->
  stops g (Inspect f n) = stops g n.
Proof.
  intros Hstop Hpass. induction n as [n IH] using Node_children_ind.
  rewrite Inspect_eq. destruct (f n) as [n'|] eqn:Hf.
  - destruct (Hstop _ _ Hf) as (Hg & Hg' & Hsum).
    rewrite (stops_eq g n'), (stops_eq g n), Hg, Hg'. exact Hsum.
  - rewrite (stops_eq g (mapChildren _ n)), (stops_eq g n).
    specialize (Hpass _ Hf).
    destruct (g n) eqn:Hgn; destruct (g (mapChildren _ n)) eqn:Hgm;
      try reflexivity.
    + destruct Hpass as [Hp _]. specialize (Hp eq_refl). discriminate.
    + destruct Hpass as [_ Hp]. specialize (Hp eq_refl). discriminate.
    + rewrite children_mapChildren, map_map. f_equal.
      apply map_ext_in. rewrite Forall_forall in IH. exact IH.
Qed.

(** A walk that stops somewhere leaves its edit in the tree: if every
    edited node satisfies [q] somewhere and [q] survives the rebuilding
    of a node, the result satisfies [q] somewhere. *)
Lemma Inspect_leaves_edit (q : Node -> bool) (g : Node -> option Node) (n : Node) :
  (forall m m', g m = Some m' -> anywhere q m' = true) ->
  1 <= stops g n -> anywhere q (Inspect g n) = true.
Proof.
  intros Hedit. induction n as [n IH] using Node_children_ind.
  rewrite stops_eq, Inspect_eq. destruct (g n) as [n'|] eqn:Hg.
  - intros _. eauto.
  - intros H. rewrite anywhere_eq, children_mapChildren.
    apply orb_true_iff. right.
    assert (exists c, In c (children n) /\ 1 <= stops g c) as (c & Hin & Hc).
    { clear IH Hg. induction (children n) as [|c l IHl]; simpl in H; [lia|].
      destruct (stops g c) eqn:Hs.
      - destruct IHl as (c' & Hin & Hc'); [lia|]. exists c'. simpl. auto.
      - exists c. simpl. split; [auto | lia]. }
    apply existsb_exists. exists (Inspect g c). split.
    + apply in_map. exact Hin.
    + rewrite Forall_forall in IH. apply IH; assumption.
Qed.

(** Every node the walk gets to is handed to the callback and replaced by
    the callback's edit, whatever was edited before it. *)
Lemma Inspect_subtree (f : Node -> option Node) (path : list nat) :
  forall n m,
    entered f path n = true -> subtree path n = Some m ->
    subtree path (Inspect f n) = Some (Inspect f m).
Proof.
  induction path as [|i rest IH]; simpl; intros n m Hent Hsub.
  - congruence.
  - rewrite Inspect_eq. destruct (f n); [discriminate|].
    rewrite children_mapChildren, nth_error_map.
    destruct (nth_error (children n) i) as [c|]; [|discriminate].
    simpl. apply IH; assumption.
Qed.

(** *** The import walk and the anchors of the second walk *)

Lemma appendMapEntry_rebuilt (s : Node) (appName : string) (m : Node) :
  appendImport s m = None ->
  appendMapEntry appName (mapChildren (Inspect (appendImport s)) m) = None <->
  appendMapEntry appName m = None.
Proof.
  intros _. destruct m as [| | | | | |ty elts| | | | |]; simpl; try tauto.
  destruct ty as [t|]; simpl; [|tauto].
  destruct t as [| | | | | | |k v| | | |]; walk_cases.
  destruct k; walk_cases.
Qed.

Lemma appendCallArgument_rebuilt (s : Node) (moduleName : string) (m : Node) :
  appendImport s m = None ->
  appendCallArgument moduleName (mapChildren (Inspect (appendImport s)) m) = None
  <-> appendCallArgument moduleName m = None.
Proof.
  intros _. destruct m as [| | | | | | | | | |fn args|]; simpl; try tauto.
  destruct fn as [| | | | | | | | |x sel| |]; walk_cases.
  destruct x; walk_cases.
Qed.

Lemma appendImport_stop (s m m' : Node) :
  appendImport s m = Some m' ->
  exists doc lp specs,
    m = GenDecl doc IMPORT lp specs /\ m' = GenDecl doc IMPORT lp (specs ++ [s]).
Proof.
  destruct m as [| |doc tok lp specs| | | | | | | | |]; try discriminate.
  destruct tok; try discriminate. simpl. intros H. inversion H. eauto.
Qed.

Lemma stops_appendMapEntry_after_import
  (name : option string) (value appName : string) (n : Node) :
  let s := ImportSpec name (BasicLit STRING value) in
  stops (appendMapEntry appName) (Inspect (appendImport s) n) =
  stops (appendMapEntry appName) n.
Proof.
  intros s. apply stops_after_walk.
  - intros m m' H. apply appendImport_stop in H as (doc & lp & specs & -> & ->).
    simpl. rewrite map_app, list_sum_app. simpl. repeat split; lia.
  - intros m. apply appendMapEntry_rebuilt.
Qed.

Lemma stops_appendCallArgument_after_import
  (name : option string) (value moduleName : string) (n : Node) :
  let s := ImportSpec name (BasicLit STRING value) in
  stops (appendCallArgument moduleName) (Inspect (appendImport s) n) =
  stops (appendCallArgument moduleName) n.
Proof.
  intros s. apply stops_after_walk.
  - intros m m' H. apply appendImport_stop in H as (doc & lp & specs & -> & ->).
    simpl. rewrite map_app, list_sum_app. simpl. repeat split; lia.
  - intros m. apply appendCallArgument_rebuilt.
Qed.

Lemma appendMapEntry_rejects (appName : string) (m : Node) :
  isStringKeyedAggregate m = false -> appendMapEntry appName m = None.
Proof.
  destruct m as [| | | | | |ty elts| | | | |]; try reflexivity.
  destruct ty as [t|]; [|reflexivity].
  destruct t as [| | | | | | |k v| | | |]; try reflexivity.
  destruct k; try reflexivity. simpl. intros ->. reflexivity.
Qed.

Lemma appendCallArgument_rejects (moduleName : string) (m : Node) :
  isSelectorCall "core" "New" m = false -> appendCallArgument moduleName m = None.
Proof.
  destruct m as [| | | | | | | | | |fn args|]; try reflexivity.
  destruct fn as [| | | | | | | | |x sel| |]; try reflexivity.
  destruct x; try reflexivity. simpl. intros ->. reflexivity.
Qed.

Lemma edit_appends (f : Node -> option Node) (new m m' : Node) :
  edit f new -> f m = Some m' -> children m' = (children m ++ [new])%list.
Proof.
  intros [spec|appName|moduleName] H.
  - apply appendImport_stop in H as (doc & lp & specs & -> & ->). reflexivity.
  - destruct m as [| | | | | |ty elts| | | | |]; try discriminate.
    destruct ty as [t|]; [|discriminate].
    destruct t as [| | | | | | |k v| | | |]; try discriminate.
    destruct k; try discriminate. simpl in H.
    destruct (_ =? _)%string; inversion H. reflexivity.
  - destruct m as [| | | | | | | | | |fn args|]; try discriminate.
    destruct fn as [| | | | | | | | |x sel| |]; try discriminate.
    destruct x; try discriminate. simpl in H.
    destruct (_ && _); inversion H. reflexivity.
Qed.

(** *** What one walk leaves for the other *)

(** A walk does not change which nodes a callback accepts: the node a walk
    returns is an anchor of a kind exactly when the node it was given
    is. *)
Lemma accepts_after_walk (h k : Node -> option Node) (newh newk : Node) :
  edit h newh -> edit k newk ->
  forall m, k (Inspect h m) = None <-> k m = None.
Proof.
  intros [s|a|mn] [s'|a'|mn'] m; destruct m; shapes.
Qed.

Lemma no_import_inside (s m : Node) :
  anywhere isImportList m = false -> stops (appendImport s) m = 0.
Proof.
  apply stops_nowhere. intros x. destruct x; shapes.
Qed.

(** A node that holds no anchor of a walk is after the walk where it was,
    and as it was: the walk appends after the children a node has, so no
    index above the node shifts. *)
Lemma untouched_by_walk (f : Node -> option Node) (new : Node) (p : list nat) :
  edit f new ->
  forall n m,
    subtree p n = Some m -> stops f m = 0 ->
    subtree p (Inspect f n) = Some m.
Proof.
  intros Hedit. induction p as [|i rest IH]; simpl; intros n m Hsub Hm.
  - inversion Hsub; subst. rewrite (Inspect_no_stop f m Hm). reflexivity.
  - destruct (nth_error (children n) i) as [c|] eqn:Hc; [|discriminate].
    rewrite Inspect_eq. destruct (f n) as [n'|] eqn:Hf.
    + rewrite (edit_appends f new n n' Hedit Hf).
      rewrite nth_error_app1 by (apply nth_error_Some; congruence).
      rewrite Hc. exact Hsub.
    + rewrite children_mapChildren, nth_error_map, Hc. simpl.
      apply IH; assumption.
Qed.

(** Nor does a walk change how far another walk gets along a path of the
    tree. *)
Lemma entered_after_any_walk (h k : Node -> option Node) (newh newk : Node)
  (p : list nat) :
  edit h newh -> edit k newk ->
  forall n m,
    subtree p n = Some m -> entered k p (Inspect h n) = entered k p n.
Proof.
  intros Hh Hk. induction p as [|i rest IH]; simpl; intros n m Hsub;
    [reflexivity|].
  destruct (nth_error (children n) i) as [c|] eqn:Hc; [|discriminate].
  pose proof (accepts_after_walk h k newh newk Hh Hk n) as Hacc.
  destruct (k n) eqn:Hkn.
  - destruct (k (Inspect h n)); [reflexivity|].
    destruct Hacc as [Hacc _]. discriminate (Hacc eq_refl).
  - destruct Hacc as [_ Hacc]. rewrite (Hacc eq_refl).
    rewrite Inspect_eq. destruct (h n) as [n'|] eqn:Hhn.
    + rewrite (edit_appends h newh n n' Hh Hhn).
      rewrite nth_error_app1 by (apply nth_error_Some; congruence).
      rewrite Hc. reflexivity.
    + rewrite children_mapChildren, nth_error_map, Hc. simpl.
      apply (IH c m). exact Hsub.
Qed.

(** The edit of the first walk of a run is in the tree the run prints:
    where the first walk gets to an anchor of its own, and what it leaves
    there holds no anchor of the second walk, the second walk leaves it
    there. *)
Lemma first_edit_is_printed (f g : Node -> option Node) (newf newg : Node)
  (p : list nat) (n m m' : Node) :
  edit f newf -> edit g newg ->
  subtree p n = Some m -> entered f p n = true ->
  f m = Some m' -> stops g m' = 0 ->
  subtree p (Inspect g (Inspect f n)) = Some m'.
Proof.
  intros Hf Hg Hsub Hent Hfm Hgm'.
  apply (untouched_by_walk g newg p Hg); [|exact Hgm'].
  rewrite (Inspect_subtree f p n m Hent Hsub), Inspect_eq, Hfm. reflexivity.
Qed.

(** The edit of the second walk is in it too: where the second walk gets
    to an anchor of its own in the parsed tree, and the anchor holds no
    anchor of the first walk, the run leaves there the second callback's
    edit of the anchor as it was parsed. *)
Lemma second_edit_is_printed (f g : Node -> option Node) (newf newg : Node)
  (p : list nat) (n m m' : Node) :
  edit f newf -> edit g newg ->
  subtree p n = Some m -> entered g p n = true ->
  stops f m = 0 -> g m = Some m' ->
  subtree p (Inspect g (Inspect f n)) = Some m'.
Proof.
  intros Hf Hg Hsub Hent Hfm Hgm.
  rewrite (Inspect_subtree g p (Inspect f n) m).
  - rewrite Inspect_eq, Hgm. reflexivity.
  - rewrite (entered_after_any_walk f g newf newg p Hf Hg n m Hsub). exact Hent.
  - exact (untouched_by_walk f newf p Hf n m Hsub Hfm).
Qed.

(** An import declaration whose specs hold no anchor of a callback that
    passes over declarations and over the appended spec holds none after
    the append either. *)
Lemma no_stop_in_appended (g : Node -> option Node) (doc : list string)
  (lp : bool) (specs : list Node) (spec : Node) :
  (forall l, g (GenDecl doc IMPORT lp l) = None) ->
  stops g (GenDecl doc IMPORT lp specs) = 0 -> stops g spec = 0 ->
  stops g (GenDecl doc IMPORT lp (specs ++ [spec])) = 0.
Proof.
  intros Hpass.
  rewrite (stops_eq g (GenDecl doc IMPORT lp specs)).
  rewrite (stops_eq g (GenDecl doc IMPORT lp (specs ++ [spec]))).
  rewrite !Hpass. simpl. rewrite map_app, list_sum_app. simpl. lia.
Qed.

(** ** The registration of a module when [core.New] is not called (C1) *)

Section MissingAnchor.

Context `{E : GoEnv}.


(** The same for the registration of an application in a file without
    a string-keyed map literal. *)
Lemma addAppToInternalMain_without_registry
  (w : world) (path projectName appName : string)
  (fset : FileSet) (node : Node) :
  parser_ParseFile w path = inr (fset, node) ->
  anywhere isStringKeyedAggregate node = false ->
  addAppToInternalMain w path projectName appName =
  match
    format_Node fset
      (Inspect (appendImport (appImport projectName appName)) node)
  with
  | inl err => {| after := w; returned := Some err; written := [] |}
  | inr buf =>
      let (w', err) := os_WriteFile w path buf in
      {| after := w'; returned := err; written := [(path, buf)] |}
  end.
Proof.
  intros Hparse Hnone. unfold addAppToInternalMain. rewrite Hparse.
  rewrite (Inspect_no_stop (appendMapEntry appName)); [reflexivity|].
  unfold appImport. rewrite stops_appendMapEntry_after_import.
  apply stops_nowhere with (p := isStringKeyedAggregate); [|exact Hnone].
  intros m. apply appendMapEntry_rejects.
Qed.

End MissingAnchor.



(** ** Which anchors a walk edits (C2) *)

(** C2, as the code has it. A walk edits every anchor it gets to, the
    first and each later one alike: wherever the callback accepts a node
    whose ancestors it passed over, the result has at that place the node
    with the new entry appended after its children, which are unchanged.
    Only what lies inside an edited node is not visited. *)
Theorem walk_edits_every_anchor_reached
  (f : Node -> option Node) (new : Node) (path : list nat) (n m : Node) :
  edit f new ->
  entered f path n = true ->
  subtree path n = Some m ->
  f m <> None ->
  exists m',
    f m = Some m' /\
    children m' = (children m ++ [new])%list /\
    subtree path (Inspect f n) = Some m'.
Proof.
  intros Hedit Hent Hsub Hcand.
  destruct (f m) as [m'|] eqn:Hf; [|congruence].
  exists m'. split; [reflexivity|]. split.
  - exact (edit_appends f new m m' Hedit Hf).
  - rewrite (Inspect_subtree f path n m Hent Hsub), Inspect_eq, Hf. reflexivity.
Qed.

Lemma walk_edits_every_anchor_reached_witness :
  exists m',
    appendImport (appImport "acme" "shop") (GenDecl [] IMPORT true
      [Templates.import_ "acme/internal/web"]) = Some m' /\
    children m' =
      [Templates.import_ "acme/internal/web"; appImport "acme" "shop"] /\
    subtree [1]
      (Inspect (appendImport (appImport "acme" "shop")) Scenario.twoOfEach)
    = Some m'.
Proof.
  apply (walk_edits_every_anchor_reached
           (appendImport (appImport "acme" "shop")) (appImport "acme" "shop")
           [1] Scenario.twoOfEach
           (GenDecl [] IMPORT true [Templates.import_ "acme/internal/web"])
           (edit_import (appImport "acme" "shop")) eq_refl eq_refl).
  discriminate.
Defined.

(** C2 as stated fails: in a file with two import declarations and two
    sibling string-keyed map literals, the second of each is edited as
    well as the first. *)
Lemma later_candidates_are_edited_too :
  let imports := Inspect (appendImport (appImport "acme" "shop")) in
  let entries := Inspect (appendMapEntry "shop") in
  (subtree [0] Scenario.twoOfEach <> subtree [0] (imports Scenario.twoOfEach) /\
   subtree [1] Scenario.twoOfEach <> subtree [1] (imports Scenario.twoOfEach) /\
   subtree [1] (imports Scenario.twoOfEach) =
   Some (GenDecl [] IMPORT true
           [Templates.import_ "acme/internal/web"; appImport "acme" "shop"]))
  /\
  (subtree [2; 2; 0; 1] Scenario.twoOfEach
   <> subtree [2; 2; 0; 1] (entries Scenario.twoOfEach) /\
   subtree [2; 2; 1; 1] Scenario.twoOfEach
   <> subtree [2; 2; 1; 1] (entries Scenario.twoOfEach) /\
   subtree [2; 2; 1; 1] (entries Scenario.twoOfEach) =
   Some (CompositeLit (Some (MapType (Ident "string") (Ident "int")))
           [KeyValueExpr (BasicLit STRING (quoted "web")) (BasicLit INT "8081");
            newAppEntry "shop"])).
Proof.
  vm_compute. repeat split; discriminate.
Qed.

(** ** Appending an import (C3) *)

(** C3, as the code has it. In the syntax tree, an import declaration of
    [n] specs has [n + 1] after the import walk: the first [n] are the
    original ones in their order and the last is the appended spec.
    Nothing checks whether the spec is already there: a second walk with
    the same spec leaves it twice. This is the tree before it is printed;
    the statement does not reach the printed file. *)
Theorem appendImport_appends_at_the_end
  (spec : Node) (name : string) (decls : list Node) (i : nat)
  (doc : list string) (lp : bool) (specs : list Node) :
  nth_error decls i = Some (GenDecl doc IMPORT lp specs) ->
  let once := Inspect (appendImport spec) (File name decls) in
  let twice := Inspect (appendImport spec) once in
  exists specs',
    subtree [i] once = Some (GenDecl doc IMPORT lp specs') /\
    List.length specs' = S (List.length specs) /\
    firstn (List.length specs) specs' = specs /\
    nth_error specs' (List.length specs) = Some spec /\
    subtree [i] twice = Some (GenDecl doc IMPORT lp (specs' ++ [spec])).
Proof.
  intros Hi once twice. exists (specs ++ [spec])%list.
  assert (Hstep : forall ds ss,
             nth_error ds i = Some (GenDecl doc IMPORT lp ss) ->
             subtree [i] (Inspect (appendImport spec) (File name ds)) =
             Some (GenDecl doc IMPORT lp (ss ++ [spec]))).
  { intros ds ss H.
    rewrite (Inspect_subtree (appendImport spec) [i] (File name ds)
               (GenDecl doc IMPORT lp ss)).
    - reflexivity.
    - simpl. rewrite H. reflexivity.
    - simpl. rewrite H. reflexivity. }
  assert (Honce : subtree [i] once = Some (GenDecl doc IMPORT lp (specs ++ [spec])))
    by (apply Hstep; exact Hi).
  repeat split.
  - exact Honce.
  - rewrite length_app. simpl. lia.
  - rewrite firstn_app, Nat.sub_diag, firstn_all. simpl. apply app_nil_r.
  - rewrite nth_error_app2, Nat.sub_diag; [reflexivity | lia].
  - subst twice. unfold once in *. simpl in Honce |- *.
    apply Hstep.
    destruct (nth_error (map _ decls) i); [|discriminate].
    simpl in Honce. congruence.
Qed.

Lemma appendImport_appends_at_the_end_witness :
  let spec := appImport "acme" "web" in
  let once := Inspect (appendImport spec) Templates.internalMain in
  let twice := Inspect (appendImport spec) once in
  exists specs',
    subtree [0] once = Some (GenDecl [] IMPORT true specs') /\
    List.length specs' = 3 /\
    firstn 2 specs' = [Templates.import_ "log"; Templates.import_ "sync"] /\
    nth_error specs' 2 = Some spec /\
    subtree [0] twice = Some (GenDecl [] IMPORT true (specs' ++ [spec])).
Proof.
  exact (appendImport_appends_at_the_end
           (appImport "acme" "web") "main" (children Templates.internalMain) 0
           [] true [Templates.import_ "log"; Templates.import_ "sync"]
           eq_refl).
Defined.

(** C3 as stated fails once the tree is printed and parsed again. The
    generated main file imports [log] and [sync]; after the application
    [web] of project [acme] is registered, the file's import list is of
    length three but its last entry is [sync] and the appended spec comes
    first. And after a module is registered twice in the application file
    the import list has its spec once. *)
Lemma printed_imports_are_sorted_and_merged :
  let main := Gofmt.store Scenario.empty Scenario.mainPath
                (Gofmt.Source Templates.internalMain) in
  let r := addAppToInternalMain (E := Gofmt.env) main Scenario.mainPath
             "acme" "web" in
  let app := Gofmt.store Scenario.empty Scenario.appPath
               (Gofmt.Source (Templates.appMain "acme" "web")) in
  let once := addModuleToAppMain (E := Gofmt.env) app Scenario.appPath
                "acme" "web" "billing" in
  let twice := addModuleToAppMain (E := Gofmt.env) (after once)
                 Scenario.appPath "acme" "web" "billing" in
  (Scenario.importsOf main Scenario.mainPath =
     Some [Templates.import_ "log"; Templates.import_ "sync"] /\
   returned r = None /\
   Scenario.importsOf (after r) Scenario.mainPath =
     Some [appImport "acme" "web";
           Templates.import_ "log"; Templates.import_ "sync"] /\
   Scenario.importsOf (after r) Scenario.mainPath <>
     Some [Templates.import_ "log"; Templates.import_ "sync";
           appImport "acme" "web"])
  /\
  (returned once = None /\ returned twice = None /\
   Scenario.importsOf (after twice) Scenario.appPath =
     Some [moduleImport "acme" "web" "billing";
           Templates.import_ "acme/internal/web/core"]).
Proof.
  vm_compute. repeat split; discriminate.
Qed.

(** ** Appending a call argument (C4) *)

(** C4. At a call of [core.New] the walk appends the module's literal
    after the arguments the call has, which it leaves as they are and in
    their order. From [core.New()], registering [billing] gives
    [core.New(billing.BillingModule{})] and registering [shipping] after
    it gives [core.New(billing.BillingModule{}, shipping.ShippingModule{})],
    for the call alone and for the call inside the generated file. *)
Theorem appendCallArgument_appends_in_call_order :
  (forall moduleName args,
     Inspect (appendCallArgument moduleName) (Templates.coreNew args) =
     Templates.coreNew (args ++ [newModuleEntry moduleName])) /\
  (let billing :=
     CompositeLit (Some (SelectorExpr (Ident "billing") "BillingModule")) [] in
   let shipping :=
     CompositeLit (Some (SelectorExpr (Ident "shipping") "ShippingModule")) [] in
   Inspect (appendCallArgument "billing") (Templates.coreNew []) =
     Templates.coreNew [billing] /\
   Inspect (appendCallArgument "shipping") (Templates.coreNew [billing]) =
     Templates.coreNew [billing; shipping] /\
   subtree [2; 4; 1; 1] (Templates.appMain "acme" "web") =
     Some (Templates.coreNew []) /\
   subtree [2; 4; 1; 1]
     (moduleRegistered "acme" "web" "billing" (Templates.appMain "acme" "web")) =
     Some (Templates.coreNew [billing]) /\
   subtree [2; 4; 1; 1]
     (moduleRegistered "acme" "web" "shipping"
        (moduleRegistered "acme" "web" "billing"
           (Templates.appMain "acme" "web"))) =
     Some (Templates.coreNew [billing; shipping])).
Proof.
  split.
  - intros moduleName args. reflexivity.
  - vm_compute. repeat split.
Qed.

(** ** A file that does not parse (C6) *)

Section ParseFailure.

Context `{E : GoEnv}.


End ParseFailure.


(** ** The two edits of a run (C7) *)

Section BothEdits.

Context `{E : GoEnv}.

(** C7, as the code has it. Between parse and print a run walks the one
    parsed tree twice, and the tree it prints holds the edits of both
    walks. Let the parsed tree have an import declaration that the first
    walk gets to and that holds no anchor of the run's second walk. Then
    for every string-keyed map literal (for [addModuleToAppMain]: every
    call of [core.New]) that the second walk gets to and that holds no
    import declaration, the tree handed to [format.Node] has the import
    appended to the declaration's specs and the entry (the argument)
    appended to the literal (the call): two structural edits in one
    run. *)
Theorem a_run_prints_both_its_edits
  (w : world) (path projectName appName moduleName : string)
  (fset : FileSet) (node : Node)
  (p1 : list nat) (doc : list string) (lp : bool) (specs : list Node) :
  let decl := GenDecl doc IMPORT lp specs in
  parser_ParseFile w path = inr (fset, node) ->
  subtree p1 node = Some decl ->
  (forall spec, entered (appendImport spec) p1 node = true) ->
  (forall (p2 : list nat) (key v : Node) (elts : list Node),
     let lit := CompositeLit (Some (MapType key v)) elts in
     anywhere isStringKeyedAggregate decl = false ->
     subtree p2 node = Some lit ->
     isStringKeyedAggregate lit = true ->
     anywhere isImportList lit = false ->
     entered (appendMapEntry appName) p2 node = true ->
     let tree := appRegistered projectName appName node in
     addAppToInternalMain w path projectName appName =
       match format_Node fset tree with
       | inl err => {| after := w; returned := Some err; written := [] |}
       | inr buf =>
           let (w', err) := os_WriteFile w path buf in
           {| after := w'; returned := err; written := [(path, buf)] |}
       end /\
     subtree p1 tree =
       Some (GenDecl doc IMPORT lp (specs ++ [appImport projectName appName])) /\
     subtree p2 tree =
       Some (CompositeLit (Some (MapType key v)) (elts ++ [newAppEntry appName])))
  /\
  (forall (p2 : list nat) (fn : Node) (args : list Node),
     let call := CallExpr fn args in
     anywhere (isSelectorCall "core" "New") decl = false ->
     subtree p2 node = Some call ->
     isSelectorCall "core" "New" call = true ->
     anywhere isImportList call = false ->
     entered (appendCallArgument moduleName) p2 node = true ->
     let tree := moduleRegistered projectName appName moduleName node in
     addModuleToAppMain w path projectName appName moduleName =
       match format_Node fset tree with
       | inl err => {| after := w; returned := Some err; written := [] |}
       | inr buf =>
           let (w', err) := os_WriteFile w path buf in
           {| after := w'; returned := err; written := [(path, buf)] |}
       end /\
     subtree p1 tree =
       Some (GenDecl doc IMPORT lp
               (specs ++ [moduleImport projectName appName moduleName])) /\
     subtree p2 tree =
       Some (CallExpr fn (args ++ [newModuleEntry moduleName]))).
Proof.
  intros decl Hparse Hsub1 Hent1. split.
  - intros p2 key v elts lit Hnomap Hsub2 Hkey Himp Hent2 tree.
    split; [|split].
    + unfold addAppToInternalMain. rewrite Hparse. reflexivity.
    + apply (first_edit_is_printed _ _ _ _ p1 node decl _
               (edit_import (appImport projectName appName))
               (edit_map appName) Hsub1 (Hent1 _) eq_refl).
      apply no_stop_in_appended; [reflexivity | | reflexivity].
      apply (stops_nowhere isStringKeyedAggregate);
        [apply appendMapEntry_rejects | exact Hnomap].
    + apply (second_edit_is_printed _ _ _ _ p2 node lit _
               (edit_import (appImport projectName appName))
               (edit_map appName) Hsub2 Hent2 (no_import_inside _ lit Himp)).
      destruct key; try discriminate. simpl in Hkey |- *.
      rewrite Hkey. reflexivity.
  - intros p2 fn args call Hnocall Hsub2 Hkey Himp Hent2 tree.
    split; [|split].
    + unfold addModuleToAppMain. rewrite Hparse. reflexivity.
    + apply (first_edit_is_printed _ _ _ _ p1 node decl _
               (edit_import (moduleImport projectName appName moduleName))
               (edit_call moduleName) Hsub1 (Hent1 _) eq_refl).
      apply no_stop_in_appended; [reflexivity | | reflexivity].
      apply (stops_nowhere (isSelectorCall "core" "New"));
        [apply appendCallArgument_rejects | exact Hnocall].
    + apply (second_edit_is_printed _ _ _ _ p2 node call _
               (edit_import (moduleImport projectName appName moduleName))
               (edit_call moduleName) Hsub2 Hent2
               (no_import_inside _ call Himp)).
      destruct fn as [| | | | | | | | |x sel| |]; try discriminate.
      destruct x; try discriminate. simpl in Hkey |- *.
      rewrite Hkey. reflexivity.
Qed.

End BothEdits.

Lemma a_run_prints_both_its_edits_witness :
  (let w := Gofmt.store Scenario.empty Scenario.mainPath
              (Gofmt.Source Templates.internalMain) in
   let tree := appRegistered "acme" "web" Templates.internalMain in
   addAppToInternalMain (E := Gofmt.env) w Scenario.mainPath "acme" "web" =
     @Build_Run Gofmt.env
       (Gofmt.store w Scenario.mainPath (Gofmt.Source (Gofmt.formatted tree)))
       None [(Scenario.mainPath, Gofmt.formatted tree)] /\
   subtree [0] tree =
     Some (GenDecl [] IMPORT true
             [Templates.import_ "log"; Templates.import_ "sync";
              appImport "acme" "web"]) /\
   subtree [2; 2; 0; 1] tree =
     Some (CompositeLit (Some (MapType (Ident "string") (Ident "AppRunner")))
             [newAppEntry "web"]))
  /\
  (let w := Gofmt.store Scenario.empty Scenario.appPath
              (Gofmt.Source (Templates.appMain "acme" "web")) in
   let tree :=
     moduleRegistered "acme" "web" "billing" (Templates.appMain "acme" "web") in
   addModuleToAppMain (E := Gofmt.env) w Scenario.appPath
     "acme" "web" "billing" =
     @Build_Run Gofmt.env
       (Gofmt.store w Scenario.appPath (Gofmt.Source (Gofmt.formatted tree)))
       None [(Scenario.appPath, Gofmt.formatted tree)] /\
   subtree [0] tree =
     Some (GenDecl [] IMPORT true
             [Templates.import_ "acme/internal/web/core";
              moduleImport "acme" "web" "billing"]) /\
   subtree [2; 4; 1; 1] tree =
     Some (Templates.coreNew [newModuleEntry "billing"])).
Proof.
  split.
  - exact (proj1
             (a_run_prints_both_its_edits (E := Gofmt.env)
                (Gofmt.store Scenario.empty Scenario.mainPath
                   (Gofmt.Source Templates.internalMain))
                Scenario.mainPath "acme" "web" "billing" tt
                Templates.internalMain [0] [] true
                [Templates.import_ "log"; Templates.import_ "sync"]
                eq_refl eq_refl (fun _ => eq_refl))
             [2; 2; 0; 1] (Ident "string") (Ident "AppRunner") []
             eq_refl eq_refl eq_refl eq_refl eq_refl).
  - exact (proj2
             (a_run_prints_both_its_edits (E := Gofmt.env)
                (Gofmt.store Scenario.empty Scenario.appPath
                   (Gofmt.Source (Templates.appMain "acme" "web")))
                Scenario.appPath "acme" "web" "billing" tt
                (Templates.appMain "acme" "web") [0] [] true
                [Templates.import_ "acme/internal/web/core"]
                eq_refl eq_refl (fun _ => eq_refl))
             [2; 4; 1; 1] (SelectorExpr (Ident "core") "New") []
             eq_refl eq_refl eq_refl eq_refl eq_refl).
Defined.

(** C7 as stated fails: registering the module [billing] in the generated
    application file of application [web], project [acme], changes the
    one parsed tree in two places, the import declaration and the
    arguments of [core.New], and both changes are in the file the run
    writes. *)
Lemma a_run_edits_twice :
  let doc := Templates.appMain "acme" "web" in
  let out := moduleRegistered "acme" "web" "billing" doc in
  let w := Gofmt.store Scenario.empty Scenario.appPath (Gofmt.Source doc) in
  let r := addModuleToAppMain (E := Gofmt.env) w Scenario.appPath
             "acme" "web" "billing" in
  subtree [0] out =
    Some (GenDecl [] IMPORT true
            [Templates.import_ "acme/internal/web/core";
             moduleImport "acme" "web" "billing"]) /\
  subtree [2; 4; 1; 1] out =
    Some (Templates.coreNew [newModuleEntry "billing"]) /\
  subtree [0] out <> subtree [0] doc /\
  subtree [2; 4; 1; 1] out <> subtree [2; 4; 1; 1] doc /\
  (exists written_tree,
     written r = [(Scenario.appPath, written_tree)] /\
     subtree [0] written_tree <> subtree [0] doc /\
     subtree [2; 4; 1; 1] written_tree <> subtree [2; 4; 1; 1] doc).
Proof.
  vm_compute. repeat split; try discriminate.
  eexists. repeat split; discriminate.
Qed.

(** ** The project name (C8) *)

Lemma free_append (p : ascii -> bool) (a b : string) :
  Strings.free p (a ++ b) = Strings.free p a && Strings.free p b.
Proof.
  induction a as [|c a IH]; simpl; [reflexivity|].
  rewrite IH. apply andb_assoc.
Qed.

Lemma free_weaken (p q : ascii -> bool) (s : string) :
  (forall c, q c = true -> p c = true) ->
  Strings.free p s = true -> Strings.free q s = true.
Proof.
  intros Hqp. induction s as [|c s IH]; simpl; [reflexivity|].
  intros H. apply andb_true_iff in H as [Hc Hs].
  apply andb_true_iff. split; [|auto].
  destruct (q c) eqn:Hq; [|reflexivity].
  rewrite (Hqp _ Hq) in Hc. discriminate.
Qed.

Lemma append_empty_r (s : string) : s ++ "" = s.
Proof. induction s as [|c s IH]; simpl; congruence. Qed.

Lemma append_assoc (a b c : string) : (a ++ b) ++ c = a ++ (b ++ c).
Proof. induction a as [|x a IH]; simpl; congruence. Qed.

Lemma splitBy_not_nil (p : ascii -> bool) (s : string) :
  Strings.splitBy p s <> [].
Proof.
  destruct s as [|c s]; simpl; [discriminate|].
  destruct (p c); [discriminate|].
  destruct (Strings.splitBy p s); discriminate.
Qed.

(** The first piece of a string that starts with a run free of cuts. *)
Lemma splitBy_free_prefix (p : ascii -> bool) (a b : string) :
  Strings.free p a = true ->
  Strings.splitBy p (a ++ b) =
  (a ++ hd "" (Strings.splitBy p b)) :: tl (Strings.splitBy p b).
Proof.
  induction a as [|c a IH]; simpl.
  - intros _. pose proof (splitBy_not_nil p b).
    destruct (Strings.splitBy p b); [contradiction | reflexivity].
  - intros H. apply andb_true_iff in H as [Hc Ha].
    destruct (p c); [discriminate|]. rewrite (IH Ha). reflexivity.
Qed.

Lemma splitBy_cut (p : ascii -> bool) (a : string) (c : ascii) (b : string) :
  Strings.free p a = true -> p c = true ->
  Strings.splitBy p (a ++ String c b) = a :: Strings.splitBy p b.
Proof.
  intros Ha Hc. rewrite (splitBy_free_prefix p a (String c b) Ha).
  simpl. rewrite Hc. simpl. now rewrite append_empty_r.
Qed.

Lemma splitBy_free (p : ascii -> bool) (a : string) :
  Strings.free p a = true -> Strings.splitBy p a = [a].
Proof.
  intros Ha. rewrite <- (append_empty_r a) at 1.
  rewrite (splitBy_free_prefix p a "" Ha). simpl. now rewrite append_empty_r.
Qed.

Lemma firstLine_of_manifest (tok1 tok2 rest : string) :
  Strings.free Strings.isSpace tok1 = true ->
  Strings.free Strings.isSpace tok2 = true ->
  endsToken false rest ->
  exists tail,
    endsToken true tail /\
    Strings.Split (tok1 ++ " " ++ tok2 ++ rest) Strings.newline =
    (tok1 ++ " " ++ tok2 ++ tail)
      :: tl (Strings.Split (tok1 ++ " " ++ tok2 ++ rest) Strings.newline).
Proof.
  intros H1 H2 Hrest.
  assert (Hnl : forall c, (Strings.newline =? c)%char = true ->
                          Strings.isSpace c = true).
  { intros c Hc. apply Ascii.eqb_eq in Hc. subst c. reflexivity. }
  assert (Hfree : Strings.free (Ascii.eqb Strings.newline)
                    (tok1 ++ " " ++ tok2) = true).
  { rewrite !free_append.
    rewrite (free_weaken Strings.isSpace _ tok1 Hnl H1).
    rewrite (free_weaken Strings.isSpace _ tok2 Hnl H2). reflexivity. }
  unfold Strings.Split.
  replace (tok1 ++ " " ++ tok2 ++ rest) with ((tok1 ++ " " ++ tok2) ++ rest)
    by (now rewrite !append_assoc).
  destruct Hrest as [->|(c & rest' & -> & [->|[_ ->]])].
  - exists "". split; [left; reflexivity|].
    rewrite !append_empty_r, (splitBy_free _ _ Hfree). reflexivity.
  - rewrite (splitBy_free_prefix _ _ _ Hfree). simpl.
    pose proof (splitBy_not_nil (Ascii.eqb Strings.newline) rest') as Hne.
    destruct (Strings.splitBy (Ascii.eqb Strings.newline) rest') as [|x xs];
      [contradiction|].
    exists (String Strings.space x). split.
    + right. exists Strings.space, x. auto.
    + simpl. rewrite ?append_assoc. reflexivity.
  - rewrite (splitBy_cut _ _ Strings.newline _ Hfree eq_refl).
    exists "". split; [left; reflexivity|].
    simpl. rewrite ?append_assoc, ?append_empty_r. reflexivity.
Qed.

(** C8, as the code has it. The code cuts the first line at single
    spaces and returns the second piece. For a manifest that starts with
    two tokens separated by one space, the second followed by a space, a
    line feed or the end of the file, that piece is the second
    whitespace-delimited token of the first line. *)
Theorem getProjectName_single_spaced (tok1 tok2 rest : string) :
  Strings.free Strings.isSpace tok1 = true -> tok1 <> "" ->
  Strings.free Strings.isSpace tok2 = true -> tok2 <> "" ->
  endsToken false rest ->
  getProjectName (tok1 ++ " " ++ tok2 ++ rest) = Some tok2 /\
  secondWhitespaceToken (tok1 ++ " " ++ tok2 ++ rest) = Some tok2.
Proof.
  intros H1 Hne1 H2 Hne2 Hrest.
  destruct (firstLine_of_manifest tok1 tok2 rest H1 H2 Hrest)
    as (tail & Htail & Hsplit).
  assert (Hsp : forall c, (Strings.space =? c)%char = true ->
                          Strings.isSpace c = true).
  { intros c Hc. apply Ascii.eqb_eq in Hc. subst c. reflexivity. }
  assert (Hn1 : Strings.nonEmpty tok1 = true)
    by (destruct tok1; [congruence | reflexivity]).
  assert (Hn2 : Strings.nonEmpty tok2 = true)
    by (destruct tok2; [congruence | reflexivity]).
  pose proof (free_weaken Strings.isSpace _ tok1 Hsp H1) as H1'.
  pose proof (free_weaken Strings.isSpace _ tok2 Hsp H2) as H2'.
  set (line := tok1 ++ " " ++ tok2 ++ tail) in *.
  assert (Hline : nth_error
                    (Strings.Split (tok1 ++ " " ++ tok2 ++ rest) Strings.newline)
                    0 = Some line) by (rewrite Hsplit; reflexivity).
  assert (Hhd : hd "" (Strings.Split (tok1 ++ " " ++ tok2 ++ rest)
                         Strings.newline) = line)
    by (rewrite Hsplit; reflexivity).
  assert (Hcut : exists xs,
             Strings.Split line Strings.space = tok1 :: tok2 :: xs).
  { unfold Strings.Split, line.
    change (tok1 ++ " " ++ tok2 ++ tail)
      with (tok1 ++ String Strings.space (tok2 ++ tail)).
    rewrite (splitBy_cut _ tok1 Strings.space (tok2 ++ tail) H1' eq_refl).
    destruct Htail as [->|(c & tail' & -> & [->|[Hfalse _]])];
      [| |discriminate].
    - rewrite append_empty_r, (splitBy_free _ _ H2'). eauto.
    - rewrite (splitBy_cut _ tok2 Strings.space tail' H2' eq_refl). eauto. }
  assert (Hfields : exists xs, Strings.Fields line = tok1 :: tok2 :: xs).
  { unfold Strings.Fields, line.
    change (tok1 ++ " " ++ tok2 ++ tail)
      with (tok1 ++ String Strings.space (tok2 ++ tail)).
    rewrite (splitBy_cut _ tok1 Strings.space (tok2 ++ tail) H1 eq_refl).
    destruct Htail as [->|(c & tail' & -> & [->|[Hfalse _]])];
      [| |discriminate].
    - rewrite append_empty_r, (splitBy_free _ _ H2).
      simpl. rewrite Hn1, Hn2. eauto.
    - rewrite (splitBy_cut _ tok2 Strings.space tail' H2 eq_refl).
      simpl. rewrite Hn1, Hn2. eauto. }
  unfold getProjectName, secondWhitespaceToken, firstLine.
  rewrite Hline, Hhd.
  destruct Hcut as [xs ->], Hfields as [ys ->]. split; reflexivity.
Qed.

Lemma getProjectName_single_spaced_witness :
  let manifest :=
    "module" ++ " " ++ "acme" ++
    String Strings.newline
      (String Strings.newline ("go 1.19" ++ String Strings.newline "")) in
  getProjectName manifest = Some "acme" /\
  secondWhitespaceToken manifest = Some "acme".
Proof.
  apply (getProjectName_single_spaced "module" "acme"
           (String Strings.newline
              (String Strings.newline ("go 1.19" ++ String Strings.newline "")))).
  - reflexivity.
  - discriminate.
  - reflexivity.
  - discriminate.
  - right. exists Strings.newline. eexists. split; [reflexivity|].
    right. split; reflexivity.
Defined.

(** C8 as stated fails where the tokens of the first line are not
    separated by single spaces: with a carriage return before the line
    feed the value returned ends in the carriage return, with two spaces
    after [module] it is empty, and with a tab the index is out of range;
    the second whitespace-delimited token is [acme] each time. *)
Lemma getProjectName_is_not_the_second_field :
  let cr := String (ascii_of_nat 13) "" in
  let lf := String Strings.newline "" in
  let tab := String (ascii_of_nat 9) "" in
  (getProjectName ("module acme" ++ cr ++ lf ++ "go 1.19" ++ lf)
     = Some ("acme" ++ cr) /\
   secondWhitespaceToken ("module acme" ++ cr ++ lf ++ "go 1.19" ++ lf)
     = Some "acme") /\
  (getProjectName ("module  acme" ++ lf) = Some "" /\
   secondWhitespaceToken ("module  acme" ++ lf) = Some "acme") /\
  (getProjectName ("module" ++ tab ++ "acme" ++ lf) = None /\
   secondWhitespaceToken ("module" ++ tab ++ "acme" ++ lf) = Some "acme").
Proof.
  vm_compute. repeat split.
Qed.

(** ** The one write of a run (C10) *)

Lemma appendMapEntry_registers (appName : string) (m m' : Node) :
  appendMapEntry appName m = Some m' ->
  anywhere (registersApp appName) m' = true.
Proof.
  destruct m as [| | | | | |ty elts| | | | |]; try discriminate.
  destruct ty as [t|]; [|discriminate].
  destruct t as [| | | | | | |k v| | | |]; try discriminate.
  destruct k; try discriminate. simpl.
  destruct (_ =? _)%string eqn:Hkey; [|discriminate].
  intros H. inversion H; subst m'; clear H.
  rewrite anywhere_eq. apply orb_true_iff. left.
  unfold registersApp. simpl. rewrite Hkey. simpl.
  rewrite existsb_app. apply orb_true_iff. right. simpl.
  rewrite !String.eqb_refl. reflexivity.
Qed.

Lemma appendCallArgument_registers (moduleName : string) (m m' : Node) :
  appendCallArgument moduleName m = Some m' ->
  anywhere (registersModule moduleName) m' = true.
Proof.
  destruct m as [| | | | | | | | | |fn args|]; try discriminate.
  destruct fn as [| | | | | | | | |x sel| |]; try discriminate.
  destruct x; try discriminate. simpl.
  destruct (_ && _) eqn:Hsel; [|discriminate].
  intros H. inversion H; subst m'; clear H.
  rewrite anywhere_eq. apply orb_true_iff. left.
  unfold registersModule. simpl. rewrite Hsel. simpl.
  rewrite existsb_app. apply orb_true_iff. right. simpl.
  rewrite !String.eqb_refl. reflexivity.
Qed.

Section OneWrite.

Context `{E : GoEnv}.

(** C10, as the code has it. A run calls [os.WriteFile] at most once,
    on its own path, and what it writes is the printed form of the
    parsed tree after both walks. That tree holds the run's registry
    entry (or call argument) whenever the parsed tree has a
    string-keyed map literal (or a [core.New] call) for the second walk
    to get to; when it has none, the import is written without it. *)
Theorem one_write_after_both_walks
  (w : world) (path projectName appName moduleName : string) :
  let app := addAppToInternalMain w path projectName appName in
  let module := addModuleToAppMain w path projectName appName moduleName in
  (List.length (written app) <= 1 /\
   forall p buf, In (p, buf) (written app) ->
     p = path /\
     exists fset node,
       parser_ParseFile w path = inr (fset, node) /\
       format_Node fset (appRegistered projectName appName node) = inr buf /\
       (1 <= stops (appendMapEntry appName) node ->
        anywhere (registersApp appName)
                 (appRegistered projectName appName node) = true)) /\
  (List.length (written module) <= 1 /\
   forall p buf, In (p, buf) (written module) ->
     p = path /\
     exists fset node,
       parser_ParseFile w path = inr (fset, node) /\
       format_Node fset
         (moduleRegistered projectName appName moduleName node) = inr buf /\
       (1 <= stops (appendCallArgument moduleName) node ->
        anywhere (registersModule moduleName)
                 (moduleRegistered projectName appName moduleName node)
        = true)).
Proof.
  intros app module. subst app module.
  unfold addAppToInternalMain, addModuleToAppMain.
  destruct (parser_ParseFile w path) as [err|[fset node]]; simpl.
  { repeat split; auto; contradiction. }
  fold (appRegistered projectName appName node).
  fold (moduleRegistered projectName appName moduleName node).
  split.
  - destruct (format_Node fset (appRegistered _ _ node)) as [err|buf] eqn:Hf;
      simpl; [split; [lia | contradiction]|].
    destruct (os_WriteFile w path buf) as [w' err]. simpl.
    split; [lia|]. intros p b [H|[]]. inversion H; subst p b.
    split; [reflexivity|]. exists fset, node.
    repeat split; auto. intros Hstop.
    apply Inspect_leaves_edit.
    + apply appendMapEntry_registers.
    + unfold appImport. now rewrite stops_appendMapEntry_after_import.
  - destruct (format_Node fset (moduleRegistered _ _ _ node))
      as [err|buf] eqn:Hf; simpl; [split; [lia | contradiction]|].
    destruct (os_WriteFile w path buf) as [w' err]. simpl.
    split; [lia|]. intros p b [H|[]]. inversion H; subst p b.
    split; [reflexivity|]. exists fset, node.
    repeat split; auto. intros Hstop.
    apply Inspect_leaves_edit.
    + apply appendCallArgument_registers.
    + unfold moduleImport. now rewrite stops_appendCallArgument_after_import.
Qed.

End OneWrite.

Lemma one_write_after_both_walks_witness :
  anywhere (registersModule "billing")
    (moduleRegistered "acme" "web" "billing" (Templates.appMain "acme" "web"))
  = true.
Proof.
  destruct (one_write_after_both_walks (E := Gofmt.env)
              (Gofmt.store Scenario.empty Scenario.appPath
                 (Gofmt.Source (Templates.appMain "acme" "web")))
              Scenario.appPath "acme" "web" "billing") as [_ [_ H]].
  destruct (H Scenario.appPath
              (Gofmt.formatted
                 (moduleRegistered "acme" "web" "billing"
                    (Templates.appMain "acme" "web")))
              (or_introl eq_refl))
    as [_ (fset & node & Hparse & _ & Hreg)].
  assert (Hnode : node = Templates.appMain "acme" "web")
    by (change (@inr error _ (tt, Templates.appMain "acme" "web")
                = inr (fset, node)) in Hparse; congruence).
  rewrite Hnode in Hreg. apply Hreg. vm_compute. lia.
Defined.

(** C10 as stated fails in its last part: where the registry of the main
    file is made by [make], so that no composite literal is there to be
    found, the run writes the file once, and the file has the import of
    the application and no registry entry for it. *)
Lemma import_written_without_registry_entry :
  let w := Gofmt.store Scenario.empty Scenario.mainPath
             (Gofmt.Source Scenario.registryByMake) in
  let r := addAppToInternalMain (E := Gofmt.env) w Scenario.mainPath
             "acme" "web" in
  returned r = None /\
  exists tree,
    written r = [(Scenario.mainPath, tree)] /\
    after r Scenario.mainPath = Some (Gofmt.Source tree) /\
    anywhere (importsPath (quoted "acme/internal/web")) tree = true /\
    anywhere (registersApp "web") tree = false /\
    anywhere (importsPath (quoted "acme/internal/web")) Scenario.registryByMake
    = false.
Proof.
  split; [reflexivity|]. eexists. split; [reflexivity|]. vm_compute. auto.
Qed.

(** ** What a run leaves alone *)

(** A top-level declaration in which neither walk finds an anchor is in
    the tree handed to the printer as the parser gave it, its doc comment
    included. *)
Theorem declaration_without_anchor_is_kept
  (projectName appName moduleName name : string)
  (decls : list Node) (i : nat) (d : Node) :
  nth_error decls i = Some d ->
  anywhere isImportList d = false ->
  anywhere isStringKeyedAggregate d = false ->
  anywhere (isSelectorCall "core" "New") d = false ->
  subtree [i] (appRegistered projectName appName (File name decls)) = Some d /\
  subtree [i] (moduleRegistered projectName appName moduleName (File name decls))
  = Some d.
Proof.
  intros Hi Himp Hmap Hcall.
  assert (Hwalk : forall f g,
             f (File name decls) = None ->
             (forall l, g (File name l) = None) ->
             stops f d = 0 -> stops g d = 0 ->
             subtree [i] (Inspect g (Inspect f (File name decls))) = Some d).
  { intros f g Hf Hg Hfd Hgd.
    rewrite (Inspect_eq f), Hf. simpl mapChildren.
    rewrite (Inspect_eq g), Hg. simpl.
    rewrite !nth_error_map, Hi. simpl.
    now rewrite (Inspect_no_stop f d Hfd), (Inspect_no_stop g d Hgd). }
  assert (Hnoimport : forall s, stops (appendImport s) d = 0).
  { intros s. apply stops_nowhere with (p := isImportList); [|exact Himp].
    intros m. destruct m as [| |doc tok lp specs| | | | | | | | |];
      try reflexivity.
    destruct tok; try reflexivity. discriminate. }
  split; apply Hwalk; auto.
  - apply stops_nowhere with (p := isStringKeyedAggregate); [|exact Hmap].
    intros m. apply appendMapEntry_rejects.
  - apply stops_nowhere with (p := isSelectorCall "core" "New"); [|exact Hcall].
    intros m. apply appendCallArgument_rejects.
Qed.

Lemma declaration_without_anchor_is_kept_witness :
  let d :=
    GenDecl ["// App struct holds the application instance."] TYPE false
      [Other "TypeSpec"
         [Ident "App"; Other "StructType" [Other "FieldList" []]]] in
  subtree [1] (appRegistered "acme" "web" (Templates.appMain "acme" "web"))
    = Some d /\
  subtree [1]
    (moduleRegistered "acme" "web" "billing" (Templates.appMain "acme" "web"))
    = Some d.
Proof.
  exact (declaration_without_anchor_is_kept "acme" "web" "billing" "web"
           (children (Templates.appMain "acme" "web")) 1 _
           eq_refl eq_refl eq_refl eq_refl).
Defined.

Lemma addAppToInternalMain_without_registry_witness :
  let w := Gofmt.store Scenario.empty Scenario.mainPath
             (Gofmt.Source Scenario.registryByMake) in
  let r := addAppToInternalMain (E := Gofmt.env) w Scenario.mainPath
             "acme" "web" in
  returned r = None /\
  written r =
  [(Scenario.mainPath,
    Gofmt.formatted
      (Inspect (appendImport (appImport "acme" "web")) Scenario.registryByMake))].
Proof.
  intros w r. subst r.
  rewrite (addAppToInternalMain_without_registry (E := Gofmt.env)
             w Scenario.mainPath "acme" "web"
             tt Scenario.registryByMake eq_refl eq_refl).
  split; reflexivity.
Defined.

(** * Further properties of the code *)

(** ** [getProjectName]: when it panics, and what it can return *)

Lemma splitBy_pieces_free (p : ascii -> bool) (s : string) :
  Forall (fun x => Strings.free p x = true) (Strings.splitBy p s).
Proof.
  induction s as [|c s IH]; simpl.
  - repeat constructor.
  - destruct (p c) eqn:Hc.
    + constructor; [reflexivity | exact IH].
    + destruct (Strings.splitBy p s) as [|x xs];
        [repeat constructor; simpl; now rewrite Hc|].
      inversion IH as [|? ? Hx Hxs]; subst.
      constructor; [simpl; now rewrite Hc, Hx | exact Hxs].
Qed.

Lemma splitBy_pieces_keep_free (p q : ascii -> bool) (s : string) :
  Strings.free q s = true ->
  Forall (fun x => Strings.free q x = true) (Strings.splitBy p s).
Proof.
  induction s as [|c s IH]; simpl; intros H.
  - repeat constructor.
  - apply andb_true_iff in H as [Hc Hs]. specialize (IH Hs).
    destruct (p c).
    + constructor; [reflexivity | exact IH].
    + destruct (Strings.splitBy p s) as [|x xs];
        [repeat constructor; simpl; now rewrite Hc|].
      inversion IH as [|? ? Hx Hxs]; subst.
      constructor; [simpl; now rewrite Hc, Hx | exact Hxs].
Qed.

Lemma splitBy_single (p : ascii -> bool) (s : string) :
  List.length (Strings.splitBy p s) = 1 <-> Strings.free p s = true.
Proof.
  induction s as [|c s IH]; simpl.
  - split; reflexivity.
  - destruct (p c); simpl.
    + pose proof (splitBy_not_nil p s).
      destruct (Strings.splitBy p s); [contradiction|].
      simpl. split; [lia | discriminate].
    + destruct (Strings.splitBy p s) as [|x xs] eqn:Hs;
        [exfalso; exact (splitBy_not_nil p s Hs)|].
      simpl in *. exact IH.
Qed.

(** [getProjectName] panics exactly on a manifest whose first line (the
    text before the first line feed) has no space in it: an empty file, a
    first line of one word, a first line whose words are separated by
    tabs. *)
Theorem getProjectName_panics_iff_no_space (goModBytes : string) :
  getProjectName goModBytes = None <->
  Strings.free (Ascii.eqb Strings.space) (firstLine goModBytes) = true.
Proof.
  unfold getProjectName, firstLine, Strings.Split.
  pose proof (splitBy_not_nil (Ascii.eqb Strings.newline) goModBytes) as Hne.
  destruct (Strings.splitBy (Ascii.eqb Strings.newline) goModBytes)
    as [|line rest]; [contradiction|].
  simpl. rewrite <- splitBy_single.
  pose proof (splitBy_not_nil (Ascii.eqb Strings.space) line) as Hne'.
  destruct (Strings.splitBy (Ascii.eqb Strings.space) line) as [|x [|y ys]];
    [contradiction | | ]; simpl; split; try reflexivity; try discriminate.
Qed.

(** Whatever [getProjectName] returns has neither a space nor a line
    feed in it. *)
Theorem getProjectName_returns_one_word (goModBytes name : string) :
  getProjectName goModBytes = Some name ->
  Strings.free (Ascii.eqb Strings.space) name = true /\
  Strings.free (Ascii.eqb Strings.newline) name = true.
Proof.
  unfold getProjectName, Strings.Split.
  pose proof (splitBy_pieces_free (Ascii.eqb Strings.newline) goModBytes) as Hl.
  destruct (Strings.splitBy (Ascii.eqb Strings.newline) goModBytes)
    as [|line rest]; [discriminate|].
  change (nth_error (Strings.splitBy (Ascii.eqb Strings.space) line) 1
          = Some name -> 
          Strings.free (Ascii.eqb Strings.space) name = true /\
          Strings.free (Ascii.eqb Strings.newline) name = true).
  inversion Hl as [|? ? Hline _]; subst. intros Hname.
  apply nth_error_In in Hname.
  pose proof (splitBy_pieces_free (Ascii.eqb Strings.space) line) as Hsp.
  pose proof (splitBy_pieces_keep_free (Ascii.eqb Strings.space)
                (Ascii.eqb Strings.newline) line Hline) as Hnl.
  rewrite Forall_forall in Hsp, Hnl. split; auto.
Qed.

Lemma getProjectName_returns_one_word_witness :
  Strings.free (Ascii.eqb Strings.space) "acme" = true /\
  Strings.free (Ascii.eqb Strings.newline) "acme" = true.
Proof.
  exact (getProjectName_returns_one_word
           ("module acme" ++ String Strings.newline "go 1.19") "acme" eq_refl).
Defined.

(** Only the first line of the manifest counts: what follows the first
    line feed does not change the result. *)
Theorem getProjectName_reads_first_line_only (line rest : string) :
  Strings.free (Ascii.eqb Strings.newline) line = true ->
  getProjectName (line ++ String Strings.newline rest) = getProjectName line.
Proof.
  intros Hfree. unfold getProjectName, Strings.Split.
  rewrite (splitBy_cut _ line Strings.newline rest Hfree eq_refl).
  rewrite (splitBy_free _ line Hfree). reflexivity.
Qed.

Lemma getProjectName_reads_first_line_only_witness :
  getProjectName ("module acme" ++ String Strings.newline "go 1.19") =
  getProjectName "module acme".
Proof.
  exact (getProjectName_reads_first_line_only "module acme" "go 1.19" eq_refl).
Defined.

(** ** What walks keep, and what a run leaves at an anchor *)

(** A walk removes nothing and moves nothing. Every position of the tree
    it is given exists in the tree it returns: there it holds the walked
    node when the walk got to it, and the very same node when it lies
    inside an anchor the walk edited (new entries go after all existing
    children, so no index shifts). *)
Theorem walk_keeps_every_position
  (f : Node -> option Node) (new : Node) (path : list nat) :
  edit f new ->
  forall n m,
    subtree path n = Some m ->
    subtree path (Inspect f n) =
    Some (if entered f path n then Inspect f m else m).
Proof.
  intros Hedit. induction path as [|i rest IH]; simpl; intros n m Hsub.
  - congruence.
  - destruct (nth_error (children n) i) as [c|] eqn:Hc; [|discriminate].
    rewrite Inspect_eq. destruct (f n) as [n'|] eqn:Hf.
    + rewrite (edit_appends f new n n' Hedit Hf).
      rewrite nth_error_app1 by (apply nth_error_Some; congruence).
      rewrite Hc. exact Hsub.
    + rewrite children_mapChildren, nth_error_map, Hc. simpl.
      apply IH. exact Hsub.
Qed.

(** The anchors a callback stops at are the same before and after any
    walk whose new entry holds no anchor of that callback. *)
Lemma stops_after_any_walk (h k : Node -> option Node) (newh newk : Node) :
  edit h newh -> edit k newk -> stops k newh = 0 ->
  forall n, stops k (Inspect h n) = stops k n.
Proof.
  intros Hh Hk Hnew n. induction n as [n IH] using Node_children_ind.
  pose proof (accepts_after_walk h k newh newk Hh Hk n) as Hacc.
  rewrite (stops_eq k (Inspect h n)), (stops_eq k n).
  destruct (k n) eqn:Hkn; destruct (k (Inspect h n)) eqn:Hkh;
    try reflexivity.
  - destruct Hacc as [Hacc _]. discriminate (Hacc eq_refl).
  - destruct Hacc as [_ Hacc]. discriminate (Hacc eq_refl).
  - rewrite Inspect_eq. destruct (h n) as [n'|] eqn:Hhn.
    + rewrite (edit_appends h newh n n' Hh Hhn), map_app, list_sum_app.
      simpl. lia.
    + rewrite children_mapChildren, map_map. f_equal.
      apply map_ext_in. rewrite Forall_forall in IH. exact IH.
Qed.

(** [addAppToInternalMain] on any document: at a string-keyed map literal
    that the second walk gets to and that holds no import declaration,
    the tree handed to the printer has the literal with its entries as
    they were, in their order, and the new entry after them. No entry is
    replaced, even one with an equal key. *)
Theorem registry_entry_is_appended_last
  (projectName appName : string) (n : Node) (p : list nat)
  (key v : Node) (elts : list Node) :
  let lit := CompositeLit (Some (MapType key v)) elts in
  subtree p n = Some lit ->
  isStringKeyedAggregate lit = true ->
  anywhere isImportList lit = false ->
  entered (appendMapEntry appName) p n = true ->
  subtree p (appRegistered projectName appName n) =
    Some (CompositeLit (Some (MapType key v)) (elts ++ [newAppEntry appName])).
Proof.
  intros lit Hsub Hkey Himp Hent.
  apply (second_edit_is_printed _ _ _ _ p n lit _
           (edit_import (appImport projectName appName)) (edit_map appName)
           Hsub Hent (no_import_inside _ lit Himp)).
  destruct key; try discriminate. simpl in Hkey |- *.
  rewrite Hkey. reflexivity.
Qed.

(** [addModuleToAppMain] on any document: at a call of [core.New] that
    the second walk gets to and that holds no import declaration, the
    tree handed to the printer has the call with its arguments as they
    were, in their order, and the module's literal after them. *)
Theorem module_argument_is_appended_last
  (projectName appName moduleName : string) (n : Node) (p : list nat)
  (fn : Node) (args : list Node) :
  let call := CallExpr fn args in
  subtree p n = Some call ->
  isSelectorCall "core" "New" call = true ->
  anywhere isImportList call = false ->
  entered (appendCallArgument moduleName) p n = true ->
  subtree p (moduleRegistered projectName appName moduleName n) =
    Some (CallExpr fn (args ++ [newModuleEntry moduleName])).
Proof.
  intros call Hsub Hkey Himp Hent.
  apply (second_edit_is_printed _ _ _ _ p n call _
           (edit_import (moduleImport projectName appName moduleName))
           (edit_call moduleName) Hsub Hent (no_import_inside _ call Himp)).
  destruct fn as [| | | | | | | | |x sel| |]; try discriminate.
  destruct x; try discriminate. simpl in Hkey |- *.
  rewrite Hkey. reflexivity.
Qed.

(** A run neither uses up nor adds an anchor: each of the three callbacks
    stops at as many nodes of the tree a run returns as of the tree it
    was given, so a registered file can be registered in again. *)
Theorem a_run_keeps_its_anchors
  (projectName appName moduleName : string) (n : Node)
  (k : Node -> option Node) (new : Node) :
  edit k new ->
  stops k (appRegistered projectName appName n) = stops k n /\
  stops k (moduleRegistered projectName appName moduleName n) = stops k n.
Proof.
  intros Hk. unfold appRegistered, moduleRegistered. split.
  - rewrite (stops_after_any_walk _ k _ new (edit_map appName) Hk);
      [|destruct Hk; reflexivity].
    apply (stops_after_any_walk _ k _ new (edit_import _) Hk).
    destruct Hk; reflexivity.
  - rewrite (stops_after_any_walk _ k _ new (edit_call moduleName) Hk);
      [|destruct Hk; reflexivity].
    apply (stops_after_any_walk _ k _ new (edit_import _) Hk).
    destruct Hk; reflexivity.
Qed.

Lemma mapChildren_ext (h h' : Node -> Node) (n : Node) :
  Forall (fun c => h c = h' c) (children n) ->
  mapChildren h n = mapChildren h' n.
Proof.
  assert (ext : forall l, Forall (fun c => h c = h' c) l -> map h l = map h' l).
  { induction 1 as [|c l Hc _ IH]; simpl; congruence. }
  destruct n; simpl; intros H; try reflexivity;
    try (rewrite (ext _ H); reflexivity);
    try (inversion H as [|? ? H1 H2]; subst;
         try (inversion H2 as [|? ? H3 H4]; subst); congruence).
  - destruct Type_; simpl in *.
    + inversion H as [|? ? H1 H2]; subst. rewrite H1, (ext _ H2). reflexivity.
    + rewrite (ext _ H). reflexivity.
  - inversion H as [|? ? H1 H2]; subst. rewrite H1, (ext _ H2). reflexivity.
Qed.

Lemma mapChildren_compose (h h' : Node -> Node) (n : Node) :
  mapChildren h (mapChildren h' n) = mapChildren (fun c => h (h' c)) n.
Proof.
  destruct n; simpl; rewrite ?map_map; try reflexivity.
  destruct Type_; reflexivity.
Qed.

(** An anchor is edited the same way before and after another walk has
    gone through its children. *)
Lemma edit_of_rebuilt (f g : Node -> option Node) (newf newg m m' : Node) :
  edit f newf -> edit g newg ->
  Inspect f newg = newg ->
  g m = Some m' -> f m = None ->
  g (mapChildren (Inspect f) m) = Some (mapChildren (Inspect f) m').
Proof.
  intros [s|a|mn] [s'|a'|mn'] Hnew Hg Hf; destruct m; simpl in Hg;
    try discriminate; shape_in Hg; inversion Hg; subst m'; clear Hg;
    simpl in Hf; try discriminate; simpl;
    repeat match goal with
           | E : _ = true |- _ => rewrite E
           end;
    rewrite ?map_app; simpl; rewrite ?Hnew; try reflexivity.
Qed.

(** Two walks that accept different kinds of node can be made in either
    order. *)
Lemma walks_commute (f g : Node -> option Node) (newf newg : Node) :
  edit f newf -> edit g newg ->
  (forall m, f m = None \/ g m = None) ->
  Inspect f newg = newg -> Inspect g newf = newf ->
  forall n, Inspect g (Inspect f n) = Inspect f (Inspect g n).
Proof.
  intros Hf Hg Hdisj Hfg Hgf n.
  induction n as [n IH] using Node_children_ind.
  pose proof (accepts_after_walk f g newf newg Hf Hg n) as Hgacc.
  pose proof (accepts_after_walk g f newg newf Hg Hf n) as Hfacc.
  rewrite (Inspect_eq f n), (Inspect_eq g n) in *.
  destruct (f n) as [n1|] eqn:Hfn; destruct (g n) as [n2|] eqn:Hgn.
  - destruct (Hdisj n); congruence.
  - rewrite (Inspect_eq f (mapChildren _ n)).
    rewrite (edit_of_rebuilt g f newg newf n n1 Hg Hf Hgf Hfn Hgn).
    rewrite Inspect_eq. destruct Hgacc as [_ Hgacc].
    rewrite (Hgacc eq_refl). reflexivity.
  - rewrite (Inspect_eq g (mapChildren _ n)).
    rewrite (edit_of_rebuilt f g newf newg n n2 Hf Hg Hfg Hgn Hfn).
    rewrite (Inspect_eq f n2). destruct Hfacc as [_ Hfacc].
    rewrite (Hfacc eq_refl). reflexivity.
  - rewrite (Inspect_eq g (mapChildren _ n)), (Inspect_eq f (mapChildren _ n)).
    destruct Hgacc as [_ Hgacc]. destruct Hfacc as [_ Hfacc].
    rewrite (Hgacc eq_refl), (Hfacc eq_refl), !mapChildren_compose.
    apply mapChildren_ext. exact IH.
Qed.

(** The tree a registration function hands to the printer does not
    depend on the order of its two walks: appending the registry entry
    (or call argument) first and the import second gives the same
    tree. *)
Theorem the_two_walks_commute
  (projectName appName moduleName : string) (n : Node) :
  appRegistered projectName appName n =
    Inspect (appendImport (appImport projectName appName))
            (Inspect (appendMapEntry appName) n) /\
  moduleRegistered projectName appName moduleName n =
    Inspect (appendImport (moduleImport projectName appName moduleName))
            (Inspect (appendCallArgument moduleName) n).
Proof.
  unfold appRegistered, moduleRegistered. split.
  - apply (walks_commute _ _ _ _ (edit_import _) (edit_map appName));
      try reflexivity.
    intros m; destruct m; simpl; auto; destruct Tok; auto.
  - apply (walks_commute _ _ _ _ (edit_import _) (edit_call moduleName));
      try reflexivity.
    intros m; destruct m; simpl; auto; destruct Tok; auto.
Qed.

Lemma walk_keeps_every_position_witness :
  subtree [2; 2; 1; 1; 1] (Inspect (appendMapEntry "shop") Scenario.twoOfEach) =
  Some (KeyValueExpr (BasicLit STRING (quoted "web")) (BasicLit INT "8081")).
Proof.
  exact (walk_keeps_every_position (appendMapEntry "shop") (newAppEntry "shop")
           [2; 2; 1; 1; 1] (edit_map "shop") Scenario.twoOfEach
           (KeyValueExpr (BasicLit STRING (quoted "web")) (BasicLit INT "8081"))
           eq_refl).
Defined.

Lemma registry_entry_is_appended_last_witness :
  subtree [2; 2; 1; 1] (appRegistered "acme" "web" Scenario.twoOfEach) =
    Some (CompositeLit (Some (MapType (Ident "string") (Ident "int")))
            [KeyValueExpr (BasicLit STRING (quoted "web")) (BasicLit INT "8081");
             newAppEntry "web"]).
Proof.
  exact (registry_entry_is_appended_last "acme" "web" Scenario.twoOfEach
           [2; 2; 1; 1] (Ident "string") (Ident "int")
           [KeyValueExpr (BasicLit STRING (quoted "web")) (BasicLit INT "8081")]
           eq_refl eq_refl eq_refl eq_refl).
Defined.

Lemma module_argument_is_appended_last_witness :
  let logger := CompositeLit (Some (SelectorExpr (Ident "logger") "LoggerModule")) [] in
  let doc :=
    Templates.appMainWith "acme" "web"
      [Other "AssignStmt" [Ident "app"; Templates.coreNew [logger]]] in
  subtree [2; 4; 1; 1] (moduleRegistered "acme" "web" "billing" doc) =
    Some (Templates.coreNew [logger; newModuleEntry "billing"]).
Proof.
  exact (module_argument_is_appended_last "acme" "web" "billing"
           (Templates.appMainWith "acme" "web"
              [Other "AssignStmt"
                 [Ident "app";
                  Templates.coreNew
                    [CompositeLit
                       (Some (SelectorExpr (Ident "logger") "LoggerModule")) []]]])
           [2; 4; 1; 1] (SelectorExpr (Ident "core") "New")
           [CompositeLit (Some (SelectorExpr (Ident "logger") "LoggerModule")) []]
           eq_refl eq_refl eq_refl eq_refl).
Defined.

Lemma a_run_keeps_its_anchors_witness :
  stops (appendMapEntry "shop")
        (appRegistered "acme" "web" Templates.internalMain) =
  stops (appendMapEntry "shop") Templates.internalMain /\
  stops (appendMapEntry "shop")
        (moduleRegistered "acme" "web" "billing" Templates.internalMain) =
  stops (appendMapEntry "shop") Templates.internalMain.
Proof.
  exact (a_run_keeps_its_anchors "acme" "web" "billing" Templates.internalMain
           (appendMapEntry "shop") (newAppEntry "shop") (edit_map "shop")).
Defined.

(** ** [findProjectRoot]: the nearest directory with a [go.mod] *)

Section ProjectRoot.

Context `{P : PathEnv}.

Lemma up_succ (k : nat) (dir : string) :
  up (S k) dir = up k (filepath_Dir dir).
Proof. unfold up. apply Nat.iter_succ_r. Qed.

Lemma searchUp_finds (k : nat) :
  forall fuel dir,
    (forall j, j < k ->
       os_Stat (filepath_Join (up j dir) "go.mod") <> None /\
       up j dir <> filepath_Dir (up j dir)) ->
    os_Stat (filepath_Join (up k dir) "go.mod") = None ->
    k < fuel ->
    searchUp fuel dir = Some (inl (up k dir)).
Proof.
  induction k as [|k IH]; intros fuel dir Hbelow Hhere Hfuel;
    (destruct fuel as [|fuel]; [lia|]); simpl.
  - change (up 0 dir) with dir in Hhere. rewrite Hhere. reflexivity.
  - destruct (Hbelow 0 ltac:(lia)) as [Hstat Hdir].
    change (up 0 dir) with dir in Hstat, Hdir.
    destruct (os_Stat (filepath_Join dir "go.mod")); [|congruence].
    apply String.eqb_neq in Hdir. rewrite Hdir.
    rewrite up_succ in *. apply IH; [|assumption|lia].
    intros j Hj. specialize (Hbelow (S j) ltac:(lia)).
    rewrite up_succ in Hbelow. exact Hbelow.
Qed.

Lemma searchUp_sound (fuel : nat) :
  forall dir r,
    searchUp fuel dir = Some r ->
    exists k,
      (forall j, j < k -> os_Stat (filepath_Join (up j dir) "go.mod") <> None) /\
      match r with
      | inl found =>
          found = up k dir /\
          os_Stat (filepath_Join found "go.mod") = None
      | inr err =>
          err = Errorf "go.mod not found in any parent directory" /\
          os_Stat (filepath_Join (up k dir) "go.mod") <> None /\
          filepath_Dir (up k dir) = up k dir
      end.
Proof.
  induction fuel as [|fuel IH]; simpl; intros dir r H; [discriminate|].
  destruct (os_Stat (filepath_Join dir "go.mod")) as [e|] eqn:Hstat.
  - destruct (dir =? filepath_Dir dir)%string eqn:Hdir.
    + inversion H; subst r. exists 0. split; [intros j Hj; lia|].
      apply String.eqb_eq in Hdir. change (up 0 dir) with dir.
      repeat split; congruence.
    + destruct (IH _ _ H) as (k & Hbelow & Hr).
      exists (S k). split.
      * intros [|j] Hj; [change (up 0 dir) with dir; congruence|].
        rewrite up_succ. apply Hbelow. lia.
      * rewrite up_succ. exact Hr.
  - inversion H; subst r. exists 0. split; [intros j Hj; lia|].
    split; [reflexivity | exact Hstat].
Qed.

Lemma searchUp_ends (k : nat) :
  forall fuel dir,
    filepath_Dir (up k dir) = up k dir -> k < fuel ->
    searchUp fuel dir <> None.
Proof.
  induction k as [|k IH]; intros fuel dir Htop Hfuel;
    (destruct fuel as [|fuel]; [lia|]); simpl;
    destruct (os_Stat (filepath_Join dir "go.mod")); try discriminate.
  - change (up 0 dir) with dir in Htop. rewrite Htop, String.eqb_refl.
    discriminate.
  - destruct (dir =? filepath_Dir dir)%string; [discriminate|].
    rewrite up_succ in Htop. apply IH; [assumption | lia].
Qed.

(** [findProjectRoot] finds the nearest directory that holds a [go.mod]:
    if the working directory's ancestor [k] levels up holds one, and no
    directory below it on the way does (none of them being the top of the
    file system), the function returns that ancestor, within [k + 1]
    iterations. *)
Theorem findProjectRoot_finds_nearest (cwd : string) (k fuel : nat) :
  os_Getwd = inr cwd ->
  (forall j, j < k ->
     os_Stat (filepath_Join (up j cwd) "go.mod") <> None /\
     up j cwd <> filepath_Dir (up j cwd)) ->
  os_Stat (filepath_Join (up k cwd) "go.mod") = None ->
  k < fuel ->
  findProjectRoot fuel = Some (inl (up k cwd)).
Proof.
  intros Hwd Hbelow Hhere Hfuel. unfold findProjectRoot. rewrite Hwd.
  apply searchUp_finds; assumption.
Qed.

(** What [findProjectRoot] returns is right. A directory it returns is
    the working directory or an ancestor of it, holds a [go.mod], and is
    the nearest such. The error it makes itself means that the search has
    come to a directory that is its own parent and that no directory on
    the way there, that one included, holds a [go.mod]. The only other
    error is the one of [os.Getwd]. *)
Theorem findProjectRoot_sound (fuel : nat) (r : string + rootError) :
  findProjectRoot fuel = Some r ->
  match r with
  | inl found =>
      exists cwd k,
        os_Getwd = inr cwd /\ found = up k cwd /\
        os_Stat (filepath_Join found "go.mod") = None /\
        forall j, j < k -> os_Stat (filepath_Join (up j cwd) "go.mod") <> None
  | inr (GetwdError err) => os_Getwd = inl err
  | inr (Errorf msg) =>
      msg = "go.mod not found in any parent directory" /\
      exists cwd k,
        os_Getwd = inr cwd /\ filepath_Dir (up k cwd) = up k cwd /\
        forall j, j <= k -> os_Stat (filepath_Join (up j cwd) "go.mod") <> None
  end.
Proof.
  unfold findProjectRoot. destruct os_Getwd as [err|cwd] eqn:Hwd.
  - intros H. inversion H. reflexivity.
  - intros H. destruct (searchUp_sound fuel cwd r H) as (k & Hbelow & Hr).
    destruct r as [found|[err|msg]].
    + destruct Hr as [-> Hstat]. exists cwd, k. auto.
    + destruct Hr as [Hr _]. discriminate.
    + destruct Hr as (Hmsg & Hstat & Htop). inversion Hmsg; subst msg.
      split; [reflexivity|]. exists cwd, k. repeat split; auto.
      intros j Hj. destruct (Nat.eq_dec j k) as [->|Hne]; [exact Hstat|].
      apply Hbelow. lia.
Qed.

(** The loop ends: when the directory [k] levels above the working
    directory is its own parent, as the root of a file system is,
    [k + 1] iterations are enough for a result. *)
Theorem findProjectRoot_ends (cwd : string) (k fuel : nat) :
  os_Getwd = inr cwd ->
  filepath_Dir (up k cwd) = up k cwd ->
  k < fuel ->
  findProjectRoot fuel <> None.
Proof.
  intros Hwd Htop Hfuel. unfold findProjectRoot. rewrite Hwd.
  apply (searchUp_ends k); assumption.
Qed.

End ProjectRoot.

Lemma findProjectRoot_finds_nearest_witness :
  findProjectRoot (P := inApp) 3 = Some (inl "/home/dev/acme").
Proof.
  apply (findProjectRoot_finds_nearest (P := inApp)
           "/home/dev/acme/internal/web" 2 3 eq_refl).
  - intros [|[|j]] Hj; [split; discriminate | split; discriminate | lia].
  - reflexivity.
  - lia.
Defined.

Lemma findProjectRoot_sound_witness :
  exists cwd k,
    @os_Getwd inApp = inr cwd /\
    "/home/dev/acme" = up (P := inApp) k cwd /\
    @os_Stat inApp
      (@filepath_Join inApp "/home/dev/acme" "go.mod") = None /\
    forall j, j < k ->
      @os_Stat inApp
        (@filepath_Join inApp (up (P := inApp) j cwd) "go.mod")
      <> None.
Proof.
  exact (findProjectRoot_sound (P := inApp) 3 (inl "/home/dev/acme") eq_refl).
Defined.

Lemma findProjectRoot_ends_witness :
  findProjectRoot (P := Unix.env "/tmp/scratch" []) 3 <> None.
Proof.
  apply (findProjectRoot_ends (P := Unix.env "/tmp/scratch" [])
           "/tmp/scratch" 2 3 eq_refl eq_refl).
  lia.
Defined.

(** ** Names: the module type and the manifest *)

Lemma isLower_not_separator (c : ascii) :
  Strings.isLower c = true -> Strings.isSeparator c = false.
Proof.
  unfold Strings.isSeparator. intros ->.
  destruct (nat_of_ascii c <=? 127)%nat; reflexivity.
Qed.

Lemma isWordByte_not_separator (c : ascii) :
  isWordByte c = true -> Strings.isSeparator c = false.
Proof.
  unfold isWordByte, Strings.isSeparator. intros ->.
  destruct (nat_of_ascii c <=? 127)%nat; reflexivity.
Qed.

Lemma TitleFrom_inside_a_word (s : string) :
  forall prev,
    Strings.isSeparator prev = false ->
    Strings.free (fun c => negb (isWordByte c)) s = true ->
    Strings.TitleFrom prev s = s.
Proof.
  induction s as [|c s IH]; simpl; intros prev Hprev Hs; [reflexivity|].
  apply andb_true_iff in Hs as [Hc Hs]. rewrite Hprev.
  rewrite negb_involutive in Hc.
  rewrite (IH c (isWordByte_not_separator c Hc) Hs). reflexivity.
Qed.

(** The type a module is registered under. For a module name that is one
    word starting with a lower-case letter (letters, digits and
    underscores only) it is the name with its first letter in upper case,
    followed by [Module]; the package qualifier is the name as given. *)
Theorem newModuleEntry_of_a_word (c : ascii) (s : string) :
  Strings.isLower c = true ->
  Strings.free (fun c => negb (isWordByte c)) s = true ->
  newModuleEntry (String c s) =
  CompositeLit
    (Some (SelectorExpr (Ident (String c s))
             (String (ascii_of_nat (nat_of_ascii c - 32)) (s ++ "Module"))))
    [].
Proof.
  intros Hc Hs. unfold newModuleEntry, Strings.Title. simpl.
  unfold Strings.toTitle. rewrite Hc.
  rewrite (TitleFrom_inside_a_word s c (isLower_not_separator c Hc) Hs).
  reflexivity.
Qed.

Lemma newModuleEntry_of_a_word_witness :
  newModuleEntry "user_profile2" =
  CompositeLit
    (Some (SelectorExpr (Ident "user_profile2") "User_profile2Module")) [].
Proof.
  exact (newModuleEntry_of_a_word "u" "ser_profile2" eq_refl eq_refl).
Defined.

Lemma first_line_decides (line rest : string) :
  Strings.free (Ascii.eqb Strings.newline) line = true ->
  getProjectName (line ++ String Strings.newline rest) = getProjectName line.
Proof.
  intros Hfree. unfold getProjectName, Strings.Split.
  rewrite (splitBy_cut _ line Strings.newline rest Hfree eq_refl).
  rewrite (splitBy_free _ line Hfree). reflexivity.
Qed.

Lemma result_is_a_piece (goModBytes name : string) :
  getProjectName goModBytes = Some name ->
  Strings.free (Ascii.eqb Strings.space) name = true /\
  Strings.free (Ascii.eqb Strings.newline) name = true.
Proof.
  unfold getProjectName, Strings.Split.
  pose proof (splitBy_pieces_free (Ascii.eqb Strings.newline) goModBytes) as Hl.
  destruct (Strings.splitBy (Ascii.eqb Strings.newline) goModBytes)
    as [|line rest]; [discriminate|].
  change (nth_error (Strings.splitBy (Ascii.eqb Strings.space) line) 1
          = Some name ->
          Strings.free (Ascii.eqb Strings.space) name = true /\
          Strings.free (Ascii.eqb Strings.newline) name = true).
  inversion Hl as [|? ? Hline _]; subst. intros Hname.
  apply nth_error_In in Hname.
  pose proof (splitBy_pieces_free (Ascii.eqb Strings.space) line) as Hsp.
  pose proof (splitBy_pieces_keep_free (Ascii.eqb Strings.space)
                (Ascii.eqb Strings.newline) line Hline) as Hnl.
  rewrite Forall_forall in Hsp, Hnl. split; auto.
Qed.

Lemma getProjectName_of_module_line (name rest : string) :
  Strings.free (Ascii.eqb Strings.space) name = true ->
  Strings.free (Ascii.eqb Strings.newline) name = true ->
  getProjectName ("module " ++ name ++ String Strings.newline rest) = Some name.
Proof.
  intros Hsp Hnl.
  change ("module " ++ name ++ String Strings.newline rest)
    with (("module " ++ name) ++ String Strings.newline rest).
  rewrite first_line_decides
    by (rewrite free_append, Hnl; reflexivity).
  unfold getProjectName, Strings.Split.
  rewrite splitBy_free by (rewrite free_append, Hnl; reflexivity).
  change (nth_error ["module " ++ name] 0) with (Some ("module " ++ name)).
  cbv beta iota.
  change ("module " ++ name) with ("module" ++ String Strings.space name).
  rewrite (splitBy_cut (Ascii.eqb Strings.space) "module" Strings.space name
             eq_refl eq_refl).
  rewrite (splitBy_free _ name Hsp). reflexivity.
Qed.

(** The name [newProject] writes into [go.mod] is the name
    [getProjectName] reads back from it, exactly when the name has no
    space and no line feed in it. *)
Theorem getProjectName_of_a_new_manifest (ProjectName : string) :
  getProjectName (goModTmpl ProjectName) = Some ProjectName <->
  Strings.free (Ascii.eqb Strings.space) ProjectName = true /\
  Strings.free (Ascii.eqb Strings.newline) ProjectName = true.
Proof.
  split; [apply result_is_a_piece|].
  intros [Hsp Hnl]. unfold goModTmpl. cbv zeta.
  apply (getProjectName_of_module_line ProjectName _ Hsp Hnl).
Qed.

(** ** When a walk edits at all *)

Lemma stops_somewhere (p : Node -> bool) (f : Node -> option Node) (n : Node) :
  (forall m, f m = None <-> p m = false) ->
  1 <= stops f n <-> anywhere p n = true.
Proof.
  intros Hpf. split.
  - intros Hstops. destruct (anywhere p n) eqn:Hany; [reflexivity|].
    rewrite (stops_nowhere p f n) in Hstops; [lia | | exact Hany].
    intros m. apply Hpf.
  - induction n as [n IH] using Node_children_ind.
    rewrite anywhere_eq, stops_eq. intros Hany.
    destruct (f n) eqn:Hf; [lia|].
    apply Hpf in Hf. rewrite Hf in Hany. simpl in Hany.
    apply existsb_exists in Hany as (c & Hin & Hc).
    rewrite Forall_forall in IH. specialize (IH c Hin Hc).
    clear Hf Hc. induction (children n) as [|d l IHl]; [contradiction|].
    simpl. destruct Hin as [->|Hin]; [lia|]. specialize (IHl Hin). lia.
Qed.

(** An edit changes the node it is made at: the node has one child
    more. *)
Lemma edit_changes (f : Node -> option Node) (new m m' : Node) :
  edit f new -> f m = Some m' -> m' <> m.
Proof.
  intros Hedit Hf Heq. apply (edit_appends f new m m' Hedit) in Hf.
  rewrite Heq in Hf. apply (f_equal (@List.length Node)) in Hf.
  rewrite length_app in Hf. simpl in Hf. lia.
Qed.

Lemma map_fixed (h : Node -> Node) (l : list Node) :
  map h l = l -> forall c, In c l -> h c = c.
Proof.
  induction l as [|d l IH]; simpl; intros Hmap c Hin; [contradiction|].
  injection Hmap as Hd Hl.
  destruct Hin as [<-|Hin]; [exact Hd | apply IH; assumption].
Qed.

(** A walk that stops somewhere returns another tree than it was
    given. *)
Lemma Inspect_changes (f : Node -> option Node) (new : Node) (n : Node) :
  edit f new -> 1 <= stops f n -> Inspect f n <> n.
Proof.
  intros Hedit. induction n as [n IH] using Node_children_ind.
  rewrite stops_eq, Inspect_eq. destruct (f n) as [n'|] eqn:Hf.
  - intros _. exact (edit_changes f new n n' Hedit Hf).
  - intros Hsum Heq.
    assert (exists c, In c (children n) /\ 1 <= stops f c) as (c & Hin & Hc).
    { clear IH Hf Heq. induction (children n) as [|c l IHl]; simpl in Hsum; [lia|].
      destruct (stops f c) eqn:Hs.
      - destruct IHl as (c' & Hin & Hc'); [lia|]. exists c'. simpl. auto.
      - exists c. simpl. split; [auto | lia]. }
    rewrite Forall_forall in IH. apply (IH c Hin Hc).
    apply (f_equal children) in Heq. rewrite children_mapChildren in Heq.
    exact (map_fixed _ _ Heq c Hin).
Qed.

Lemma Inspect_changes_iff (p : Node -> bool) (f : Node -> option Node)
  (new : Node) (n : Node) :
  edit f new -> (forall m, f m = None <-> p m = false) ->
  Inspect f n <> n <-> anywhere p n = true.
Proof.
  intros Hedit Hpf. split.
  - intros Hne. destruct (anywhere p n) eqn:Hany; [reflexivity|].
    exfalso. apply Hne. apply Inspect_no_stop.
    apply (stops_nowhere p f n); [intros m; apply Hpf | exact Hany].
  - intros Hany. apply (Inspect_changes f new n Hedit).
    apply (stops_somewhere p f n Hpf). exact Hany.
Qed.

(** A walk changes the tree exactly when the tree holds an anchor of its
    kind, at whatever depth: the import walk returns another tree than it
    was given if and only if there is an import declaration, the registry
    walk if and only if there is a string-keyed map literal, and the
    module walk if and only if there is a call of [core.New]. Otherwise
    the walk returns the tree as it was. *)
Theorem a_walk_edits_iff_an_anchor_exists
  (spec : Node) (appName moduleName : string) (n : Node) :
  (Inspect (appendImport spec) n <> n <-> anywhere isImportList n = true) /\
  (Inspect (appendMapEntry appName) n <> n <->
   anywhere isStringKeyedAggregate n = true) /\
  (Inspect (appendCallArgument moduleName) n <> n <->
   anywhere (isSelectorCall "core" "New") n = true).
Proof.
  split; [|split].
  - apply (Inspect_changes_iff _ _ _ n (edit_import spec)).
    intros m; destruct m; shapes.
  - apply (Inspect_changes_iff _ _ _ n (edit_map appName)).
    intros m; destruct m; shapes.
  - apply (Inspect_changes_iff _ _ _ n (edit_call moduleName)).
    intros m; destruct m; shapes.
Qed.
